(** * The image upload task of [pkgs/trigger/src/trigger/example.ts]

    A shallow embedding of [upload_image_to_digital_ocean_spaces] and of
    [download_image], together with the library calls they make
    ([process.env], [uuidv4], [path.posix.join], [fs.readFile], [fetch],
    [sharp], the managed S3 [Upload], [console]).  The asynchronous function
    is a computation that emits a trace of the calls it makes to its
    collaborators and settles to either a value or a thrown error. *)

From Stdlib Require Import ZArith List Ascii String Strings.Byte Lia.
From stdpp Require Import base tactics option list strings gmap.

Local Open Scope string_scope.
Local Open Scope list_scope.

(** ** [path.posix] of Node.js

    [path.posix.join] concatenates its non-empty arguments with ["/"] and
    normalizes the result; [normalize] resolves ["."] and [".."] segments,
    collapses repeated separators and keeps a trailing separator.  The
    character loop of Node's [normalizeString] is rendered on the list of
    ["/"]-separated segments. *)
Module Path.

Definition is_sep (c : ascii) : bool := Ascii.eqb c "/"%char.

(** The segments of a path: the pieces between separators, empty pieces
    included, so a path with [n] separators has [n + 1] segments. *)
Fixpoint segments (s : string) : list string :=
  match s with
  | EmptyString => [EmptyString]
  | String c r =>
      if is_sep c then EmptyString :: segments r
      else match segments r with
           | seg :: segs => String c seg :: segs
           | [] => [String c EmptyString]
           end
  end.

Fixpoint unsegments (segs : list string) : string :=
  match segs with
  | [] => ""
  | [seg] => seg
  | seg :: rest => seg +:+ "/" +:+ unsegments rest
  end.

Definition starts_with_sep (s : string) : bool :=
  match s with
  | EmptyString => false
  | String c _ => is_sep c
  end.

Fixpoint ends_with_sep (s : string) : bool :=
  match s with
  | EmptyString => false
  | String c EmptyString => is_sep c
  | String _ r => ends_with_sep r
  end.

(** One separator of [normalizeString]: the segment that just ended is
    dropped ([""], ["."]), cancels the segment before it ([".."]), or is
    appended.  [res] is the result so far, last segment first. *)
Definition push_segment (allowAboveRoot : bool) (res : list string) (seg : string)
  : list string :=
  if (seg =? "") || (seg =? ".") then res
  else if seg =? ".." then
    match res with
    | top :: below =>
        if top =? ".." then (if allowAboveRoot then ".." :: res else res)
        else below
    | [] => if allowAboveRoot then [".."] else []
    end
  else seg :: res.

Definition normalizeString (path : string) (allowAboveRoot : bool) : string :=
  unsegments (rev (fold_left (push_segment allowAboveRoot) (segments path) [])).

Definition normalize (path : string) : string :=
  if path =? "" then "."
  else
    let isAbsolute := starts_with_sep path in
    let trailingSeparator := ends_with_sep path in
    let p := normalizeString path (negb isAbsolute) in
    if p =? "" then
      (if isAbsolute then "/" else if trailingSeparator then "./" else ".")
    else
      let p := if trailingSeparator then p +:+ "/" else p in
      if isAbsolute then "/" +:+ p else p.

Definition join (args : list string) : string :=
  let joined :=
    fold_left
      (fun (joined : option string) (arg : string) =>
         if arg =? "" then joined
         else match joined with
              | None => Some arg
              | Some j => Some (j +:+ "/" +:+ arg)
              end)
      args None in
  match joined with
  | None => "."
  | Some j => normalize j
  end.

(** A segment that normalization keeps as it is. *)
Definition plain_segment (seg : string) : bool :=
  negb ((seg =? "") || (seg =? ".") || (seg =? "..")).

(** A path-safe string: a relative path in normal form, that is, every
    segment is non-empty and none is ["."] or [".."].  There is then no
    leading, trailing or doubled separator and no traversal. *)
Definition path_safe (s : string) : bool := forallb plain_segment (segments s).

Definition no_sep (s : string) : bool :=
  forallb (fun c => negb (is_sep c)) (list_ascii_of_string s).

End Path.

(** ** JavaScript values *)

(** A thrown value: an [Error] object with its [name] and [message]. *)
Record JsError := mkJsError { name : string; message : string }.

(** [new Error(msg)] *)
Definition new_Error (msg : string) : JsError := {| name := "Error"; message := msg |}.

(** A Node.js [Buffer]. *)
Definition Buffer : Type := list byte.

(** The result of awaiting a promise of a collaborator. *)
Inductive Settled (A : Type) : Type :=
| Fulfilled (value : A)
| Rejected (reason : JsError).
Arguments Fulfilled {A} value.
Arguments Rejected {A} reason.

(** ** [uuid]

    [uuidv4()] returns the canonical text of a fresh identifier: five groups
    of lower-case hexadecimal digits separated by hyphens. *)
Module Uuid.

Inductive hexdigit : Type :=
| x0 | x1 | x2 | x3 | x4 | x5 | x6 | x7
| x8 | x9 | xa | xb | xc | xd | xe | xf.

Definition hexchar (d : hexdigit) : ascii :=
  match d with
  | x0 => "0" | x1 => "1" | x2 => "2" | x3 => "3"
  | x4 => "4" | x5 => "5" | x6 => "6" | x7 => "7"
  | x8 => "8" | x9 => "9" | xa => "a" | xb => "b"
  | xc => "c" | xd => "d" | xe => "e" | xf => "f"
  end%char.

Record t : Type := mk {
  time_low : list hexdigit;
  time_mid : list hexdigit;
  time_hi_and_version : list hexdigit;
  clock_seq : list hexdigit;
  node : list hexdigit
}.

Definition hex (ds : list hexdigit) : string :=
  string_of_list_ascii (map hexchar ds).

Definition stringify (u : t) : string :=
  hex (time_low u) +:+ "-" +:+ hex (time_mid u) +:+ "-" +:+
  hex (time_hi_and_version u) +:+ "-" +:+ hex (clock_seq u) +:+ "-" +:+
  hex (node u).

End Uuid.

(** ** The payload of the task *)

Record OptimizeImageSource := {
  type : string;
  file_path : string;   (* read when [type] is ['local'] *)
  file_url : string     (* read when [type] is ['remote'] *)
}.

Record OptimizeImageDestination := {
  bucket_name : string;
  object_folder : string;
  object_slug : string
}.

Record OptimizeImageInput := {
  source : OptimizeImageSource;
  dest : OptimizeImageDestination
}.

Record OptimizeImageOutput := { optimized_img_url : string }.

(** ** The collaborators *)

(** The [Response] of [fetch]. *)
Record Response := {
  status : Z;
  statusText : string;
  arrayBuffer : Settled Buffer
}.

(** [response.ok]: the status is in the range 200-299. *)
Definition ok (r : Response) : bool :=
  (200 <=? status r)%Z && (status r <=? 299)%Z.

(** A path of the local file system either holds a readable file or cannot
    be read (permissions, I/O fault); a path not in the map does not exist. *)
Inductive FileNode :=
| Readable (contents : Buffer)
| Unreadable (fault : JsError).

Inductive OutputFormat := avif | webp | jpeg | png.

Record S3ClientConfig := {
  region : string;
  endpoint : string;
  accessKeyId : string;
  secretAccessKey : string;
  forcePathStyle : bool
}.

Record UploadParams := {
  Bucket : string;
  Key : string;
  Body : Buffer;
  ACL : string;
  ContentType : string
}.

(** Everything outside the function that one invocation observes. *)
Record World := {
  (* process.env *)
  env : gmap string string;
  (* the identifier the next call of uuidv4() returns *)
  uuid : Uuid.t;
  (* the local file system *)
  fs : gmap string FileNode;
  (* the outcome of one HTTP GET of a URL *)
  fetch : string -> Settled Response;
  (* the image codec behind sharp *)
  image : Type;
  decode : Buffer -> Settled image;
  encode : OutputFormat -> Z -> image -> Buffer;
  (* the outcome of a managed upload to the object store *)
  put_object : S3ClientConfig -> UploadParams -> Settled unit
}.

(** ** Asynchronous computations

    A computation emits the calls it makes, in order, and settles. *)
Inductive Event :=
| NewS3Client (config : S3ClientConfig)
| Uuidv4
| ReadFile (path : string)
| Fetch (url : string)
| SharpToBuffer (input : Buffer) (format : OutputFormat) (quality : Z)
| UploadDone (client : S3ClientConfig) (params : UploadParams) (queueSize partSize : Z)
| ConsoleLog (line : string)
| ConsoleError (args : list string).

Definition Async (A : Type) : Type := list Event * Settled A.

Definition ret {A} (a : A) : Async A := ([], Fulfilled a).

Definition throw {A} (e : JsError) : Async A := ([], Rejected e).

Definition emit (ev : Event) : Async unit := ([ev], Fulfilled tt).

(** [await p] for a promise of a collaborator that settles to [p]. *)
Definition await {A} (p : Settled A) : Async A := ([], p).

Definition bind {A B} (m : Async A) (k : A -> Async B) : Async B :=
  match m with
  | (t, Fulfilled a) => let (t', r) := k a in (t ++ t', r)
  | (t, Rejected e) => (t, Rejected e)
  end.

(** [try { body } catch (error) { handler }] *)
Definition try_catch {A} (body : Async A) (handler : JsError -> Async A) : Async A :=
  match body with
  | (t, Fulfilled a) => (t, Fulfilled a)
  | (t, Rejected e) => let (t', r) := handler e in (t ++ t', r)
  end.

#[global] Instance Async_ret : MRet Async := @ret.
#[global] Instance Async_bind : MBind Async := fun A B k m => bind m k.

Definition trace {A} (m : Async A) : list Event := fst m.
Definition outcome {A} (m : Async A) : Settled A := snd m.

(** ** The library calls, as computations *)

(** A variable of [process.env] as a condition: [undefined] and the empty
    string are falsy. *)
Definition truthy (v : option string) : option string :=
  match v with
  | Some s => if s =? "" then None else Some s
  | None => None
  end.

Definition new_S3Client (config : S3ClientConfig) : Async S3ClientConfig :=
  emit (NewS3Client config);; mret config.

Definition uuidv4 (w : World) : Async string :=
  emit Uuidv4;; mret (Uuid.stringify (uuid w)).

Definition ENOENT (path : string) : JsError :=
  {| name := "Error";
     message := "ENOENT: no such file or directory, open '" +:+ path +:+ "'" |}.

(** Modelled from the spec: [fs.readFile] of Node.js, which is not part of
    the repository.  It yields the bytes of the file at the path, and fails
    when the path does not exist or is unreadable. *)
Definition fs_readFile (w : World) (path : string) : Async Buffer :=
  emit (ReadFile path);;
  match fs w !! path with
  | Some (Readable contents) => mret contents
  | Some (Unreadable fault) => throw fault
  | None => throw (ENOENT path)
  end.

Definition fetch_url (w : World) (url : string) : Async Response :=
  emit (Fetch url);; await (fetch w url).

(** Modelled from the spec: [sharp(input).toFormat(format, { quality }).toBuffer()]
    of the sharp library, which is not part of the repository.  It fails when
    the input bytes are not a decodable image, and otherwise yields the image
    encoded in the format at the quality. *)
Definition sharp_toBuffer (w : World) (input : Buffer) (format : OutputFormat)
    (quality : Z) : Async Buffer :=
  emit (SharpToBuffer input format quality);;
  img ← await (decode w input);
  mret (encode w format quality img).

(** [new Upload({ client, params, queueSize, partSize }).done()] *)
Definition upload_done (w : World) (client : S3ClientConfig) (params : UploadParams)
    (queueSize partSize : Z) : Async unit :=
  emit (UploadDone client params queueSize partSize);;
  await (put_object w client params).

Definition console_log (line : string) : Async unit := emit (ConsoleLog line).

Definition console_error (args : list string) : Async unit := emit (ConsoleError args).

(** ** The program *)

(** The error [download_image] throws for a response that is not ok. *)
Definition download_error (url : string) (response : Response) : JsError :=
  new_Error ("Failed to download image from " +:+ url +:+ ": " +:+ statusText response).

Definition download_image (w : World) (url : string) : Async Buffer :=
  response ← fetch_url w url;
  if negb (ok response) then
    throw (download_error url response)
  else
    arrayBuffer ← await (arrayBuffer response);
    mret arrayBuffer.

Definition REGION : string := "nyc3".

Definition ENDPOINT : string := "https://" +:+ REGION +:+ ".digitaloceanspaces.com".

Definition fileExtension : string := "avif".

(** The object key computed from the destination and the identifier. *)
Definition objectKey_of (d : OptimizeImageDestination) (id : string) : string :=
  let fileNameBase := object_slug d +:+ "-" +:+ id in
  let avifFileName := fileNameBase +:+ "." +:+ fileExtension in
  Path.join [object_folder d; avifFileName].

Definition cdn_url (bucket objectKey : string) : string :=
  "https://" +:+ bucket +:+ "." +:+ REGION +:+ ".cdn.digitaloceanspaces.com/"
  +:+ objectKey.

(** Image acquisition: the branch on [input.source.type]. *)
Definition acquire (w : World) (src : OptimizeImageSource) : Async Buffer :=
  if type src =? "local" then
    fs_readFile w (file_path src)
  else if type src =? "remote" then
    download_image w (file_url src)
  else
    throw (new_Error "Invalid input type").

(** Transcoding: [sharp(imageBuffer).avif({ quality: 85 }).toBuffer()]. *)
Definition transcode (w : World) (imageBuffer : Buffer) : Async Buffer :=
  sharp_toBuffer w imageBuffer avif 85.

Definition uploadParams_of (input : OptimizeImageInput) (objectKey : string)
    (avifBuffer : Buffer) : UploadParams :=
  {| Bucket := bucket_name (dest input);
     Key := objectKey;
     Body := avifBuffer;
     ACL := "public-read";
     ContentType := "image/avif" |}.

Definition success_line (input : OptimizeImageInput) (objectKey : string) : string :=
  "File '" +:+
  (if type (source input) =? "local" then file_path (source input)
   else file_url (source input)) +:+
  "' uploaded successfully to '" +:+ bucket_name (dest input) +:+ "/" +:+
  objectKey +:+ "'.".

(** The body of the [try] block. *)
Definition try_body (w : World) (input : OptimizeImageInput)
    (s3Client : S3ClientConfig) (objectKey : string) : Async OptimizeImageOutput :=
  imageBuffer ← acquire w (source input);
  avifBuffer ← transcode w imageBuffer;
  let uploadParams := uploadParams_of input objectKey avifBuffer in
  upload_done w s3Client uploadParams 4 (5 * 1024 * 1024);;
  console_log (success_line input objectKey);;
  mret {| optimized_img_url := cdn_url (bucket_name (dest input)) objectKey |}.

(** The [catch] block. *)
Definition catch_handler (error : JsError) : Async OptimizeImageOutput :=
  console_error ["Error:"; message error];;
  throw error.

Definition credentials_error : JsError :=
  new_Error "DigitalOcean Spaces credentials are not set in environment variables.".

Definition s3_config (ACCESS_KEY SECRET_KEY : string) : S3ClientConfig :=
  {| region := REGION;
     endpoint := ENDPOINT;
     accessKeyId := ACCESS_KEY;
     secretAccessKey := SECRET_KEY;
     forcePathStyle := true |}.

Definition upload_image_to_digital_ocean_spaces (w : World) (input : OptimizeImageInput)
    : Async OptimizeImageOutput :=
  let ACCESS_KEY := env w !! "DIGITAL_OCEAN_SPACES_ACCESS_KEY" in
  let SECRET_KEY := env w !! "DIGITAL_OCEAN_SPACES_SECRET_KEY" in
  match truthy ACCESS_KEY, truthy SECRET_KEY with
  | Some ACCESS_KEY, Some SECRET_KEY =>
      s3Client ← new_S3Client (s3_config ACCESS_KEY SECRET_KEY);
      id ← uuidv4 w;
      let objectKey := objectKey_of (dest input) id in
      try_catch (try_body w input s3Client objectKey) catch_handler
  | _, _ => throw credentials_error
  end.

(** ** Reading traces and worlds *)

(** An environment value is absent when it is undefined or empty. *)
Definition absent (v : option string) : Prop := v = None \/ v = Some "".

Definition access_key (w : World) : option string :=
  env w !! "DIGITAL_OCEAN_SPACES_ACCESS_KEY".

Definition secret_key (w : World) : option string :=
  env w !! "DIGITAL_OCEAN_SPACES_SECRET_KEY".

(** Both credentials are present: defined and not empty. *)
Definition credentials_set (w : World) : Prop :=
  ~ absent (access_key w) /\ ~ absent (secret_key w).

(** The client configuration built from the environment. *)
Definition client_of (w : World) : S3ClientConfig :=
  s3_config (default "" (access_key w)) (default "" (secret_key w)).

(** The object key of an invocation. *)
Definition key_of (w : World) (input : OptimizeImageInput) : string :=
  objectKey_of (dest input) (Uuid.stringify (uuid w)).

(** Calls that reach the network or the file system, that transcode, that
    upload. *)
Definition is_acquisition (ev : Event) : bool :=
  match ev with ReadFile _ | Fetch _ => true | _ => false end.

Definition is_transcoding (ev : Event) : bool :=
  match ev with SharpToBuffer _ _ _ => true | _ => false end.

Definition is_upload (ev : Event) : bool :=
  match ev with UploadDone _ _ _ _ => true | _ => false end.

Definition is_error_log (ev : Event) : bool :=
  match ev with ConsoleError _ => true | _ => false end.

Definition none_of (p : Event -> bool) (t : list Event) : Prop :=
  List.filter p t = [].

(** The parameters of the upload calls of a trace, in order. *)
Fixpoint uploads (t : list Event) : list UploadParams :=
  match t with
  | [] => []
  | UploadDone _ params _ _ :: t' => params :: uploads t'
  | _ :: t' => uploads t'
  end.

(** The inputs of the transcoding calls of a trace, in order. *)
Fixpoint transcoded (t : list Event) : list (Buffer * OutputFormat * Z) :=
  match t with
  | [] => []
  | SharpToBuffer input format quality :: t' => (input, format, quality) :: transcoded t'
  | _ :: t' => transcoded t'
  end.

(** The decodable images of a world. *)
Definition decodable (w : World) (b : Buffer) : Prop :=
  exists img, decode w b = Fulfilled img.

(** Every stage of the pipeline succeeds. *)
Definition pipeline_succeeds (w : World) (input : OptimizeImageInput) : Prop :=
  credentials_set w /\
  exists imageBuffer img,
    outcome (acquire w (source input)) = Fulfilled imageBuffer /\
    decode w imageBuffer = Fulfilled img /\
    put_object w (client_of w)
      (uploadParams_of input (key_of w input) (encode w avif 85 img)) = Fulfilled tt.

(** ** Sample worlds and payloads *)
Module Sample.

Definition png_bytes : Buffer := [x89; x50; x4e; x47]%byte.
Definition junk : Buffer := [x00; x01]%byte.

(** A toy codec: an image is a buffer that starts with the byte 0x89. *)
Definition toy_decode (b : Buffer) : Settled Buffer :=
  match b with
  | x89 :: _ => Fulfilled b
  | _ => Rejected (new_Error "Input buffer contains unsupported image format")
  end.

Definition toy_encode (format : OutputFormat) (quality : Z) (img : Buffer) : Buffer :=
  match format with avif => x61 | webp => x77 | jpeg => x6a | png => x70 end
    :: default x00 (Byte.of_nat (Z.to_nat quality)) :: img.

Definition toy_fetch (url : string) : Settled Response :=
  if url =? "https://example.com/a.png" then
    Fulfilled {| status := 200; statusText := "OK"; arrayBuffer := Fulfilled png_bytes |}
  else if url =? "https://example.com/gone.png" then
    Fulfilled {| status := 404; statusText := "Not Found"; arrayBuffer := Fulfilled [] |}
  else Rejected {| name := "TypeError"; message := "fetch failed" |}.

Definition EACCES : JsError :=
  {| name := "Error"; message := "EACCES: permission denied, open '/root/b.png'" |}.

Import Uuid.

Definition id1 : Uuid.t :=
  {| time_low := [x1; xb; x9; xd; x6; xb; xc; xd];
     time_mid := [xb; xb; xf; xd];
     time_hi_and_version := [x4; xb; x2; xd];
     clock_seq := [x9; xb; x5; xd];
     node := [xa; xb; x8; xd; xf; xb; xb; xd; x4; xb; xe; xd] |}.

Definition id2 : Uuid.t :=
  {| time_low := [x9; xb; x1; xd; xe; xb; x4; xd];
     time_mid := [x3; xb; x7; xd];
     time_hi_and_version := [x4; xb; xa; xd];
     clock_seq := [x8; xb; x0; xd];
     node := [x2; xb; x0; xd; x7; xb; x3; xd; xc; xb; x6; xd] |}.

Definition env_full : gmap string string :=
  <["DIGITAL_OCEAN_SPACES_ACCESS_KEY" := "AK"]>
    (<["DIGITAL_OCEAN_SPACES_SECRET_KEY" := "SK"]> ∅).

Definition env_no_secret : gmap string string :=
  <["DIGITAL_OCEAN_SPACES_ACCESS_KEY" := "AK"]> ∅.

Definition disk : gmap string FileNode :=
  <["/tmp/a.png" := Readable png_bytes]>
    (<["/tmp/notes.txt" := Readable junk]>
       (<["/root/b.png" := Unreadable EACCES]> ∅)).

Definition world_with (e : gmap string string) (u : Uuid.t) : World :=
  {| env := e;
     uuid := u;
     fs := disk;
     fetch := toy_fetch;
     image := Buffer;
     decode := toy_decode;
     encode := toy_encode;
     put_object := fun _ params =>
       if Bucket params =? "assets" then Fulfilled tt
       else Rejected {| name := "NoSuchBucket";
                        message := "The specified bucket does not exist" |} |}.

Definition world : World := world_with env_full id1.
Definition world_no_secret : World := world_with env_no_secret id1.

Definition hero : OptimizeImageDestination :=
  {| bucket_name := "assets"; object_folder := "img"; object_slug := "hero" |}.

Definition local (path : string) : OptimizeImageSource :=
  {| type := "local"; file_path := path; file_url := "" |}.

Definition remote (url : string) : OptimizeImageSource :=
  {| type := "remote"; file_path := ""; file_url := url |}.

Definition input_local : OptimizeImageInput :=
  {| source := local "/tmp/a.png"; dest := hero |}.

Definition input_gone : OptimizeImageInput :=
  {| source := remote "https://example.com/gone.png"; dest := hero |}.

Definition input_ftp : OptimizeImageInput :=
  {| source := {| type := "ftp"; file_path := ""; file_url := "ftp://example.com/a.png" |};
     dest := hero |}.

End Sample.

(** ** Statements about an invocation *)

(** Every error that reaches the caller was logged by the [catch] block. *)
Definition logged_and_rethrown (w : World) (input : OptimizeImageInput) : Prop :=
  forall e,
    outcome (upload_image_to_digital_ocean_spaces w input) = Rejected e ->
    In (ConsoleError ["Error:"; message e])
       (trace (upload_image_to_digital_ocean_spaces w input)).

(** The [try] statement of an invocation whose credentials are set. *)
Definition try_block (w : World) (input : OptimizeImageInput) : Async OptimizeImageOutput :=
  try_body w input (client_of w) (key_of w input).

(** ** The task [uploadOptimizedImageTask]

    The [run] function of the task: it logs the payload, awaits
    [upload_image_to_digital_ocean_spaces], logs the usage of the run and
    returns the result in an object.  [usage.getCurrent()] belongs to the
    task runner; its value at the time of the call is a parameter. *)
Module uploadOptimizedImageTask.

Definition id : string := "upload-optimized-image".

Definition maxDuration : Z := 30.

(** The second argument of [logger.log]. *)
Inductive LogData (U : Type) : Type :=
| PayloadData (payload : OptimizeImageInput)
| UsageData (current : U).
Arguments PayloadData {U} payload.
Arguments UsageData {U} current.

(** What the task does: it logs, and it makes the calls of the function it
    awaits. *)
Inductive TaskEvent (U : Type) : Type :=
| LoggerLog (message : string) (data : LogData U)
| Call (ev : Event).
Arguments LoggerLog {U} message data.
Arguments Call {U} ev.

Record Output := { result : OptimizeImageOutput }.

Definition run {U : Type} (usage_getCurrent : U) (w : World)
    (payload : OptimizeImageInput) : list (TaskEvent U) * Settled Output :=
  let optimizing := LoggerLog "optimizing" (PayloadData payload) in
  match upload_image_to_digital_ocean_spaces w payload with
  | (t, Fulfilled result) =>
      (optimizing :: map Call t ++ [LoggerLog "usage" (UsageData usage_getCurrent)],
       Fulfilled {| result := result |})
  | (t, Rejected e) => (optimizing :: map Call t, Rejected e)
  end.

(** The calls of the awaited function among the events of the task. *)
Fixpoint calls {U : Type} (t : list (TaskEvent U)) : list Event :=
  match t with
  | [] => []
  | Call ev :: t' => ev :: calls t'
  | LoggerLog _ _ :: t' => calls t'
  end.

(** The messages of [logger.log], in order. *)
Fixpoint logged {U : Type} (t : list (TaskEvent U)) : list string :=
  match t with
  | [] => []
  | LoggerLog message _ :: t' => message :: logged t'
  | Call _ :: t' => logged t'
  end.

End uploadOptimizedImageTask.

(** ** More readings of a trace *)

(** The upload calls of a trace with all their arguments. *)
Fixpoint upload_calls (t : list Event) : list (S3ClientConfig * UploadParams * Z * Z) :=
  match t with
  | [] => []
  | UploadDone client params queueSize partSize :: t' =>
      (client, params, queueSize, partSize) :: upload_calls t'
  | _ :: t' => upload_calls t'
  end.

(** The clients constructed in a trace. *)
Fixpoint clients (t : list Event) : list S3ClientConfig :=
  match t with
  | [] => []
  | NewS3Client config :: t' => config :: clients t'
  | _ :: t' => clients t'
  end.

(** The lines written by [console.log]. *)
Fixpoint console_lines (t : list Event) : list string :=
  match t with
  | [] => []
  | ConsoleLog line :: t' => line :: console_lines t'
  | _ :: t' => console_lines t'
  end.

(** The argument lists of [console.error]. *)
Fixpoint console_errors (t : list Event) : list (list string) :=
  match t with
  | [] => []
  | ConsoleError args :: t' => args :: console_errors t'
  | _ :: t' => console_errors t'
  end.

(** The calls to the collaborators that do the work of the pipeline:
    acquisition, transcoding and upload. *)
Definition is_stage (ev : Event) : bool :=
  is_acquisition ev || is_transcoding ev || is_upload ev.

Inductive Stage := Acquisition | Transcoding | Uploading.

(** The stages a trace goes through, in order. *)
Fixpoint stages (t : list Event) : list Stage :=
  match t with
  | [] => []
  | ReadFile _ :: t' | Fetch _ :: t' => Acquisition :: stages t'
  | SharpToBuffer _ _ _ :: t' => Transcoding :: stages t'
  | UploadDone _ _ _ _ :: t' => Uploading :: stages t'
  | _ :: t' => stages t'
  end.

(** Segments, each followed by a separator. *)
Fixpoint directory (segs : list string) : string :=
  match segs with
  | [] => ""
  | seg :: rest => seg +:+ "/" +:+ directory rest
  end.

(** The part of an object key that precedes the hyphen and the identifier:
    the normalized folder and slug. *)
Definition key_stem (d : OptimizeImageDestination) : string :=
  let q := if object_folder d =? "" then object_slug d
           else object_folder d +:+ "/" +:+ object_slug d in
  let isAbsolute := Path.starts_with_sep q in
  let kept :=
    fold_left (Path.push_segment (negb isAbsolute))
              (removelast (Path.segments q)) [] in
  (if isAbsolute then "/" else "") +:+ directory (rev kept)
  +:+ List.last (Path.segments q) "".

(** ** More sample worlds and payloads *)
Module Scenario.

Definition input_remote : OptimizeImageInput :=
  {| source := Sample.remote "https://example.com/a.png"; dest := Sample.hero |}.

Definition input_unreachable : OptimizeImageInput :=
  {| source := Sample.remote "https://unreachable.invalid/a.png"; dest := Sample.hero |}.

(** A destination whose bucket the sample object store refuses. *)
Definition input_no_bucket : OptimizeImageInput :=
  {| source := Sample.local "/tmp/a.png";
     dest := {| bucket_name := "missing"; object_folder := "img";
                object_slug := "hero" |} |}.

Definition world2 : World := Sample.world_with Sample.env_full Sample.id2.

End Scenario.

(** * Properties *)

(** ** Facts about [path.posix] *)
Section PathFacts.
Import Path.

Lemma segments_not_nil s : segments s <> [].
Proof.
  destruct s as [|c r]; simpl; [discriminate|].
  destruct (is_sep c); [discriminate|].
  destruct (segments r); discriminate.
Qed.

Lemma segments_cons_plain c r :
  is_sep c = false ->
  segments (String c r) = String c (hd "" (segments r)) :: tl (segments r).
Proof.
  intros Hc. simpl. rewrite Hc.
  pose proof (segments_not_nil r). destruct (segments r); [congruence|done].
Qed.

(** Joining the segments with ["/"] gives the path back. *)
Lemma unsegments_segments s : unsegments (segments s) = s.
Proof.
  induction s as [|c r IH]; [done|].
  pose proof (segments_not_nil r) as Hne.
  simpl. destruct (is_sep c) eqn:Hc.
  - apply Ascii.eqb_eq in Hc. subst c.
    simpl. destruct (segments r) as [|seg segs]; [congruence|].
    by rewrite IH.
  - destruct (segments r) as [|seg segs] eqn:Hr; [congruence|].
    rewrite <- IH. simpl. by destruct segs.
Qed.

Lemma segments_app_sep a b :
  segments (a +:+ String "/" b) = segments a ++ segments b.
Proof.
  induction a as [|c r IH]; [done|].
  simpl. rewrite IH. destruct (is_sep c); [done|].
  pose proof (segments_not_nil r). by destruct (segments r).
Qed.

Lemma segments_no_sep r : no_sep r = true -> segments r = [r].
Proof.
  induction r as [|c r IH]; [done|].
  unfold no_sep. simpl. intros [Hc Hr]%andb_prop.
  apply negb_true_iff in Hc. rewrite Hc, (IH Hr). done.
Qed.

(** Appending separator-free text extends the last segment. *)
Lemma segments_app_no_sep a r :
  no_sep r = true ->
  segments (a +:+ r) = removelast (segments a) ++ [List.last (segments a) "" +:+ r].
Proof.
  intros Hr. induction a as [|c a IH].
  - simpl. by apply segments_no_sep.
  - pose proof (segments_not_nil a) as Hne.
    change (String c a +:+ r) with (String c (a +:+ r)).
    simpl segments. rewrite IH. destruct (is_sep c).
    + destruct (segments a) as [|seg segs]; [congruence|done].
    + destruct (segments a) as [|seg [|seg' segs]]; [congruence|done|done].
Qed.

Lemma fold_push_plain b segs acc :
  forallb plain_segment segs = true ->
  fold_left (push_segment b) segs acc = rev segs ++ acc.
Proof.
  revert acc. induction segs as [|seg segs IH]; intros acc; [done|].
  simpl. intros [Hseg Hsegs]%andb_prop.
  rewrite (IH _ Hsegs), <- app_assoc. f_equal.
  unfold plain_segment in Hseg. unfold push_segment.
  apply negb_true_iff in Hseg.
  destruct (seg =? "") eqn:E1, (seg =? ".") eqn:E2, (seg =? "..") eqn:E3;
    simpl in *; congruence.
Qed.

Lemma starts_with_sep_hd s :
  starts_with_sep s = true -> hd "" (segments s) = "".
Proof. destruct s as [|c r]; [done|]. simpl. by intros ->. Qed.

Lemma ends_with_sep_last s :
  ends_with_sep s = true -> List.last (segments s) "" = "".
Proof.
  induction s as [|c r IH]; [done|].
  pose proof (segments_not_nil r) as Hne.
  destruct r as [|c' r'].
  - simpl. by intros ->.
  - intros H. specialize (IH H).
    change (segments (String c (String c' r')))
      with (if is_sep c then EmptyString :: segments (String c' r')
            else match segments (String c' r') with
                 | seg :: segs => String c seg :: segs
                 | [] => [String c EmptyString]
                 end).
    destruct (is_sep c).
    + destruct (segments (String c' r')) as [|seg segs]; [congruence|done].
    + pose proof (unsegments_segments (String c' r')) as Hu.
      destruct (segments (String c' r')) as [|seg [|seg' segs]];
        [congruence| |exact IH].
      simpl in IH, Hu. congruence.
Qed.

Lemma plain_segment_nonempty seg : plain_segment seg = true -> seg <> "".
Proof. by intros H ->. Qed.

Lemma path_safe_hd s : path_safe s = true -> hd "" (segments s) <> "".
Proof.
  unfold path_safe. pose proof (segments_not_nil s).
  destruct (segments s) as [|seg segs]; [congruence|].
  simpl. intros [Hseg _]%andb_prop. by apply plain_segment_nonempty.
Qed.

Lemma path_safe_last s : path_safe s = true -> plain_segment (List.last (segments s) "") = true.
Proof.
  unfold path_safe. pose proof (segments_not_nil s) as Hne. intros H.
  rewrite forallb_forall in H. apply H.
  destruct (exists_last Hne) as (l & x & ->).
  rewrite last_last. apply in_or_app. right. by left.
Qed.

(** Normalization leaves a path-safe string as it is. *)
Lemma normalize_path_safe p : path_safe p = true -> normalize p = p.
Proof.
  intros Hp. unfold normalize.
  assert (Hne : p <> "").
  { intros ->. by apply path_safe_hd in Hp. }
  apply String.eqb_neq in Hne. rewrite Hne.
  assert (Hs : starts_with_sep p = false).
  { apply not_true_is_false. intros H%starts_with_sep_hd.
    by apply path_safe_hd in Hp. }
  assert (He : ends_with_sep p = false).
  { apply not_true_is_false. intros H%ends_with_sep_last.
    apply path_safe_last in Hp. by rewrite H in Hp. }
  rewrite Hs, He. simpl. unfold normalizeString.
  rewrite fold_push_plain by exact Hp.
  rewrite app_nil_r, rev_involutive, unsegments_segments.
  by rewrite Hne.
Qed.

End PathFacts.

(** ** Facts about strings and identifiers *)
Section StringFacts.
Import Path.

Lemma list_ascii_app a b :
  list_ascii_of_string (a +:+ b) = list_ascii_of_string a ++ list_ascii_of_string b.
Proof. induction a as [|c a IH]; simpl; [done|by rewrite IH]. Qed.

Lemma append_inv_tail a b c : a +:+ c = b +:+ c -> a = b.
Proof.
  intros H. apply (f_equal list_ascii_of_string) in H.
  rewrite !list_ascii_app in H. apply app_inv_tail in H.
  apply (f_equal string_of_list_ascii) in H.
  by rewrite !string_of_list_ascii_of_string in H.
Qed.

Lemma append_inv_head a b c : a +:+ b = a +:+ c -> b = c.
Proof. induction a as [|x a IH]; simpl; [done|]. intros [= H]. auto. Qed.

Lemma no_sep_app a b : no_sep (a +:+ b) = no_sep a && no_sep b.
Proof. unfold no_sep. by rewrite list_ascii_app, forallb_app. Qed.

Lemma no_sep_hex ds : no_sep (Uuid.hex ds) = true.
Proof.
  unfold no_sep, Uuid.hex. rewrite list_ascii_of_string_of_list_ascii.
  induction ds as [|d ds IH]; [done|].
  simpl. rewrite IH. by destruct d.
Qed.

(** The text of an identifier holds no path separator. *)
Lemma no_sep_stringify u : no_sep (Uuid.stringify u) = true.
Proof.
  unfold Uuid.stringify.
  rewrite !no_sep_app, !no_sep_hex. reflexivity.
Qed.

Lemma plain_segment_spec seg :
  plain_segment seg = true <-> seg <> "" /\ seg <> "." /\ seg <> "..".
Proof.
  unfold plain_segment. rewrite negb_true_iff, !orb_false_iff, !String.eqb_neq.
  tauto.
Qed.

Lemma plain_segment_extend seg r :
  seg <> "" -> plain_segment (seg +:+ String "-" r) = true.
Proof.
  intros Hseg. apply plain_segment_spec.
  destruct seg as [|c seg]; [done|]. simpl.
  split; [discriminate|]. split.
  - intros [= _ H]. by destruct seg.
  - intros [= _ H]. destruct seg as [|c' seg]; [discriminate|].
    simpl in H. injection H as _ H. by destruct seg.
Qed.

Lemma forallb_removelast {A} (p : A -> bool) l :
  forallb p l = true -> forallb p (removelast l) = true.
Proof.
  induction l as [|x [|y l] IH]; [done|done|].
  intros [Hx Hl]%andb_prop.
  change (removelast (x :: y :: l)) with (x :: removelast (y :: l)).
  simpl forallb at 1. rewrite Hx. simpl. by apply IH.
Qed.

(** A path-safe folder, a separator, a path-safe slug and separator-free
    text that starts with a hyphen make a path-safe string. *)
Lemma path_safe_compose folder slug r :
  path_safe folder = true -> path_safe slug = true -> no_sep r = true ->
  path_safe (folder +:+ "/" +:+ slug +:+ "-" +:+ r) = true.
Proof.
  intros Hf Hs Hr. unfold path_safe.
  change ("/" +:+ slug +:+ "-" +:+ r) with (String "/" (slug +:+ String "-" r)).
  rewrite segments_app_sep, forallb_app.
  apply andb_true_intro. split; [exact Hf|].
  rewrite segments_app_no_sep by exact Hr.
  rewrite forallb_app. apply andb_true_intro. split.
  - by apply forallb_removelast.
  - simpl. rewrite andb_true_r. apply plain_segment_extend.
    apply plain_segment_nonempty. by apply path_safe_last.
Qed.

Lemma path_safe_nonempty s : path_safe s = true -> s <> "".
Proof. intros H ->. by apply path_safe_hd in H. Qed.

Lemma join_two a b :
  a <> "" -> b <> "" -> join [a; b] = normalize (a +:+ "/" +:+ b).
Proof.
  intros Ha%String.eqb_neq Hb%String.eqb_neq.
  unfold join. simpl. by rewrite Ha, Hb.
Qed.

Lemma append_assoc a b c : (a +:+ b) +:+ c = a +:+ b +:+ c.
Proof.
  induction a as [|x a IH]; [done|].
  change (String x ((a +:+ b) +:+ c) = String x (a +:+ b +:+ c)).
  by rewrite IH.
Qed.

Lemma append_nonempty_r a c b : a +:+ String c b <> "".
Proof. by destruct a. Qed.

(** The object key of a path-safe destination. *)
Lemma objectKey_of_path_safe d id :
  path_safe (object_folder d) = true ->
  path_safe (object_slug d) = true ->
  no_sep id = true ->
  objectKey_of d id
  = object_folder d +:+ "/" +:+ object_slug d +:+ "-" +:+ id +:+ ".avif".
Proof.
  intros Hf Hs Hid. unfold objectKey_of, fileExtension. cbv zeta.
  change ("." +:+ "avif") with ".avif".
  rewrite append_assoc.
  change (("-" +:+ id) +:+ ".avif") with (String "-" (id +:+ ".avif")).
  rewrite join_two.
  - apply normalize_path_safe, path_safe_compose; [done|done|].
    by rewrite no_sep_app, Hid.
  - by apply path_safe_nonempty.
  - apply append_nonempty_r.
Qed.

Lemma objectKey_of_inj d id1 id2 :
  path_safe (object_folder d) = true ->
  path_safe (object_slug d) = true ->
  no_sep id1 = true -> no_sep id2 = true ->
  objectKey_of d id1 = objectKey_of d id2 -> id1 = id2.
Proof.
  intros Hf Hs H1 H2. rewrite !objectKey_of_path_safe by done.
  intros H. do 4 apply append_inv_head in H.
  by apply append_inv_tail in H.
Qed.

End StringFacts.

(** ** The stages of the pipeline *)

Ltac unfold_async :=
  cbv [mbind mret Async_bind Async_ret bind ret throw emit await try_catch
       trace outcome fst snd] in *.

Section Stages.
Variable w : World.

Lemma truthy_absent v : absent v -> truthy v = None.
Proof. by intros [-> | ->]. Qed.

Lemma truthy_present v : ~ absent v -> truthy v = Some (default "" v).
Proof.
  unfold absent. destruct v as [s|]; simpl; [|tauto].
  destruct (String.eqb_spec s ""); [subst; tauto|done].
Qed.

Lemma absent_dec v : absent v \/ ~ absent v.
Proof.
  unfold absent. destruct v as [s|]; [|by left; left].
  destruct (String.eqb_spec s ""); [subst; by left; right|].
  right. intros [?|[= ?]]; congruence.
Qed.

(** The credentials are present, or one of them is absent. *)
Lemma credentials_cases :
  credentials_set w \/ absent (access_key w) \/ absent (secret_key w).
Proof.
  unfold credentials_set.
  destruct (absent_dec (access_key w)), (absent_dec (secret_key w)); tauto.
Qed.

(** The guard on the credentials throws before anything else happens. *)
Lemma run_without_credentials input :
  absent (access_key w) \/ absent (secret_key w) ->
  upload_image_to_digital_ocean_spaces w input = ([], Rejected credentials_error).
Proof.
  unfold upload_image_to_digital_ocean_spaces, access_key, secret_key.
  intros [H | H]; rewrite (truthy_absent _ H); [done|].
  by destruct (truthy _).
Qed.

(** With credentials, the function builds the client, draws the
    identifier and runs the [try] statement. *)
Lemma run_with_credentials input :
  credentials_set w ->
  upload_image_to_digital_ocean_spaces w input
  = let stmt := try_catch (try_body w input (client_of w) (key_of w input))
                          catch_handler in
    (NewS3Client (client_of w) :: Uuidv4 :: trace stmt, outcome stmt).
Proof.
  intros [Ha Hs].
  unfold upload_image_to_digital_ocean_spaces, client_of, key_of.
  fold (access_key w) (secret_key w).
  rewrite (truthy_present _ Ha), (truthy_present _ Hs).
  unfold new_S3Client, uuidv4. unfold_async.
  by destruct (try_body _ _ _ _) as [t [out|e]].
Qed.

Lemma try_catch_fulfilled {A} (body : Async A) handler out :
  outcome body = Fulfilled out ->
  try_catch body handler = (trace body, Fulfilled out).
Proof. destruct body as [t r]. simpl. by intros ->. Qed.

(** The [catch] block logs the error and throws it again. *)
Lemma try_catch_rejected body e :
  outcome body = Rejected e ->
  try_catch body catch_handler
  = (trace body ++ [ConsoleError ["Error:"; message e]], Rejected e).
Proof. destruct body as [t r]. simpl. by intros ->. Qed.

(** The [try] block, stage by stage. *)
Lemma try_body_stages input client key :
  try_body w input client key =
  match acquire w (source input) with
  | (t, Rejected e) => (t, Rejected e)
  | (t, Fulfilled imageBuffer) =>
      match decode w imageBuffer with
      | Rejected e => (t ++ [SharpToBuffer imageBuffer avif 85], Rejected e)
      | Fulfilled img =>
          let params := uploadParams_of input key (encode w avif 85 img) in
          match put_object w client params with
          | Rejected e =>
              (t ++ [SharpToBuffer imageBuffer avif 85;
                     UploadDone client params 4 5242880], Rejected e)
          | Fulfilled _ =>
              (t ++ [SharpToBuffer imageBuffer avif 85;
                     UploadDone client params 4 5242880;
                     ConsoleLog (success_line input key)],
               Fulfilled {| optimized_img_url :=
                              cdn_url (bucket_name (dest input)) key |})
          end
      end
  end.
Proof.
  unfold try_body, transcode, sharp_toBuffer, upload_done, console_log.
  destruct (acquire w (source input)) as [t [imageBuffer|e]]; [|done].
  unfold_async. destruct (decode w imageBuffer) as [img|e]; [|done].
  simpl. by destruct (put_object w client _) as [[]|e].
Qed.

(** Acquisition makes one call, to the file system or to the network, or
    none. *)
Lemma acquire_trace src :
  trace (acquire w src) = []
  \/ trace (acquire w src) = [ReadFile (file_path src)]
  \/ trace (acquire w src) = [Fetch (file_url src)].
Proof.
  unfold acquire, fs_readFile, download_image, fetch_url.
  destruct (type src =? "local").
  - right; left. unfold_async.
    by destruct (fs w !! file_path src) as [[c|f]|].
  - destruct (type src =? "remote"); [|by left].
    right; right. unfold_async.
    destruct (fetch w (file_url src)) as [r|e]; [|done].
    destruct (ok r); simpl; [|done].
    by destruct (arrayBuffer r).
Qed.

Lemma acquire_uploads src : uploads (trace (acquire w src)) = [].
Proof. by destruct (acquire_trace src) as [-> | [-> | ->]]. Qed.

Lemma acquire_transcoded src : transcoded (trace (acquire w src)) = [].
Proof. by destruct (acquire_trace src) as [-> | [-> | ->]]. Qed.

End Stages.

Lemma uploads_app t t' : uploads (t ++ t') = uploads t ++ uploads t'.
Proof.
  induction t as [|ev t IH]; [done|]. destruct ev; simpl; by rewrite ?IH.
Qed.

Lemma transcoded_app t t' : transcoded (t ++ t') = transcoded t ++ transcoded t'.
Proof.
  induction t as [|ev t IH]; [done|]. destruct ev; simpl; by rewrite ?IH.
Qed.

(** Case analysis on one invocation: the credentials, then the stages of
    the [try] block. *)
Ltac pipeline_cases w input :=
  let Hc := fresh "Hcred" in
  destruct (credentials_cases w) as [Hc | Hc];
  [ rewrite (run_with_credentials w input Hc);
    let Hu := fresh "Hup" in
    let Ht := fresh "Htr" in
    let Ha := fresh "Hacq" in
    pose proof (acquire_uploads w (source input)) as Hu;
    pose proof (acquire_transcoded w (source input)) as Ht;
    rewrite (try_body_stages w input);
    destruct (acquire w (source input)) as [?t [?imageBuffer | ?e]] eqn:Ha;
    [ destruct (decode w _) as [?img | ?e] eqn:?Hdec;
      [ cbv zeta; destruct (put_object w _ _) as [[] | ?e] eqn:?Hput | ] | ]
  | rewrite (run_without_credentials w input Hc) ];
  cbn [trace outcome fst snd try_catch catch_handler console_error emit throw
       mbind Async_bind bind] in *.

(** ** The properties of the specification *)

(** C1: when either credential of the environment is absent (undefined or
    empty), the function fails at once with the configuration error, and
    its trace is empty: no network call, no file read, no transcoding and
    no upload is attempted, whatever the input. *)
Theorem C1_missing_credentials_fail_first (w : World) (input : OptimizeImageInput) :
  absent (env w !! "DIGITAL_OCEAN_SPACES_ACCESS_KEY")
  \/ absent (env w !! "DIGITAL_OCEAN_SPACES_SECRET_KEY") ->
  outcome (upload_image_to_digital_ocean_spaces w input)
  = Rejected (new_Error
      "DigitalOcean Spaces credentials are not set in environment variables.")
  /\ trace (upload_image_to_digital_ocean_spaces w input) = [].
Proof.
  intros H. by rewrite (run_without_credentials w input H).
Qed.

Lemma C1_witness :
  absent (env Sample.world_no_secret !! "DIGITAL_OCEAN_SPACES_SECRET_KEY")
  /\ trace (upload_image_to_digital_ocean_spaces
              Sample.world_no_secret Sample.input_local) = [].
Proof.
  assert (H : absent (env Sample.world_no_secret !! "DIGITAL_OCEAN_SPACES_SECRET_KEY"))
    by (left; reflexivity).
  split; [exact H|].
  exact (proj2 (C1_missing_credentials_fail_first
                  Sample.world_no_secret Sample.input_local (or_intror H))).
Defined.

Lemma ok_iff_2xx response :
  ok response = true <-> (200 <= status response <= 299)%Z.
Proof. unfold ok. rewrite andb_true_iff, !Z.leb_le. tauto. Qed.

Lemma download_image_http_failure w url response :
  fetch w url = Fulfilled response ->
  ~ (200 <= status response <= 299)%Z ->
  download_image w url = ([Fetch url], Rejected (download_error url response)).
Proof.
  intros Hf Hst. unfold download_image, fetch_url. rewrite Hf.
  assert (Hok : ok response = false).
  { apply not_true_is_false. by rewrite ok_iff_2xx. }
  unfold_async. by rewrite Hok.
Qed.

(** C2: for a remote input whose GET is answered with a status outside
    200-299, [download_image] throws its download error, the invocation is
    rejected, and the trace holds no transcoding call and no upload call;
    with the credentials set, the rejection is that download error, logged
    once by the [catch] block. *)
Theorem C2_http_failure_stops_pipeline (w : World) (input : OptimizeImageInput)
    (response : Response) :
  type (source input) = "remote" ->
  fetch w (file_url (source input)) = Fulfilled response ->
  ~ (200 <= status response <= 299)%Z ->
  let url := file_url (source input) in
  let run := upload_image_to_digital_ocean_spaces w input in
  download_image w url = ([Fetch url], Rejected (download_error url response))
  /\ (exists e, outcome run = Rejected e)
  /\ transcoded (trace run) = []
  /\ uploads (trace run) = []
  /\ (credentials_set w ->
      run = ([NewS3Client (client_of w); Uuidv4; Fetch url;
              ConsoleError ["Error:"; message (download_error url response)]],
             Rejected (download_error url response))).
Proof.
  intros Hty Hf Hst url run.
  pose proof (download_image_http_failure w url response Hf Hst) as Hd.
  assert (Ha : acquire w (source input)
               = ([Fetch url], Rejected (download_error url response))).
  { unfold acquire. by rewrite Hty. }
  split; [exact Hd|]. subst run.
  destruct (credentials_cases w) as [Hc | Hc].
  - rewrite (run_with_credentials w input Hc), (try_body_stages w input), Ha.
    cbn. repeat split; eauto.
  - rewrite (run_without_credentials w input Hc). cbn.
    repeat split; eauto.
    intros [Hc1 Hc2]. tauto.
Qed.

Lemma C2_witness :
  outcome (upload_image_to_digital_ocean_spaces Sample.world Sample.input_gone)
  = Rejected (new_Error
      "Failed to download image from https://example.com/gone.png: Not Found")
  /\ uploads (trace (upload_image_to_digital_ocean_spaces
                       Sample.world Sample.input_gone)) = [].
Proof.
  pose proof (C2_http_failure_stops_pipeline Sample.world Sample.input_gone
    {| status := 404; statusText := "Not Found"; arrayBuffer := Fulfilled [] |}
    eq_refl eq_refl) as H.
  cbv zeta in H.
  assert (Hst : ~ (200 <= 404 <= 299)%Z) by lia.
  assert (Hc : credentials_set Sample.world).
  { split; intros [H0 | H0]; vm_compute in H0; discriminate. }
  destruct (H Hst) as (_ & _ & _ & Hup & Hrun).
  split; [|exact Hup].
  rewrite (Hrun Hc). reflexivity.
Defined.

(** C9: with the credentials set, a payload whose [source.type] is neither
    ['local'] nor ['remote'] is rejected with the error 'Invalid input
    type'; the trace holds the client construction, the identifier and the
    error log only, so no file read, no fetch, no transcoding and no upload
    is performed. *)
Theorem C9_invalid_input_type (w : World) (input : OptimizeImageInput) :
  credentials_set w ->
  type (source input) <> "local" ->
  type (source input) <> "remote" ->
  let run := upload_image_to_digital_ocean_spaces w input in
  outcome run = Rejected (new_Error "Invalid input type")
  /\ trace run = [NewS3Client (client_of w); Uuidv4;
                  ConsoleError ["Error:"; "Invalid input type"]]
  /\ none_of is_acquisition (trace run)
  /\ none_of is_transcoding (trace run)
  /\ none_of is_upload (trace run).
Proof.
  intros Hc Hl%String.eqb_neq Hr%String.eqb_neq run. subst run.
  rewrite (run_with_credentials w input Hc), (try_body_stages w input).
  unfold acquire. rewrite Hl, Hr. by cbn.
Qed.

Lemma credentials_set_sample : credentials_set Sample.world.
Proof. split; intros [H | H]; vm_compute in H; discriminate. Defined.

Lemma C9_witness :
  outcome (upload_image_to_digital_ocean_spaces Sample.world Sample.input_ftp)
  = Rejected (new_Error "Invalid input type").
Proof.
  refine (proj1 (C9_invalid_input_type Sample.world Sample.input_ftp
                   credentials_set_sample _ _)); simpl; discriminate.
Defined.

(** C5: when the invocation is fulfilled, its trace holds exactly one upload
    call; the bucket of that call is [dest.bucket_name], and the returned
    URL is [https://{bucket}.nyc3.cdn.digitaloceanspaces.com/{key}] for
    that bucket and the [Key] of that call. *)
Theorem C5_url_matches_upload (w : World) (input : OptimizeImageInput)
    (out : OptimizeImageOutput) :
  outcome (upload_image_to_digital_ocean_spaces w input) = Fulfilled out ->
  exists params,
    uploads (trace (upload_image_to_digital_ocean_spaces w input)) = [params]
    /\ Bucket params = bucket_name (dest input)
    /\ optimized_img_url out
       = "https://" +:+ bucket_name (dest input) +:+ "." +:+ "nyc3" +:+ ".cdn."
         +:+ "digitaloceanspaces.com" +:+ "/" +:+ Key params.
Proof.
  pipeline_cases w input; intros [= <-].
  eexists. cbn [uploads]. rewrite uploads_app, Hup. cbn. eauto.
Qed.

Lemma C5_witness :
  exists params,
    uploads (trace (upload_image_to_digital_ocean_spaces
                      Sample.world Sample.input_local)) = [params]
    /\ Key params = "img/hero-1b9d6bcd-bbfd-4b2d-9b5d-ab8dfbbd4bed.avif".
Proof.
  destruct (C5_url_matches_upload Sample.world Sample.input_local
              {| optimized_img_url :=
                   "https://assets.nyc3.cdn.digitaloceanspaces.com/img/hero-1b9d6bcd-bbfd-4b2d-9b5d-ab8dfbbd4bed.avif" |}
              eq_refl) as (params & Hup & _ & _).
  exists params. split; [exact Hup|].
  vm_compute in Hup. by injection Hup as <-.
Defined.

(** C3, as stated, fails: without the secret key the configuration error
    reaches the caller and nothing was logged. *)
Lemma C3_counterexample :
  ~ logged_and_rethrown Sample.world_no_secret Sample.input_local.
Proof.
  intros H. specialize (H credentials_error eq_refl).
  vm_compute in H. exact H.
Qed.

(** C3, amended: an error raised inside the [try] block is caught, logged
    by [console.error] with its message, and thrown again as it is, and a
    value of the [try] block is returned as it is; the configuration error
    of the credentials guard is thrown before the [try] block and reaches
    the caller without a log entry.  No error is replaced by a value. *)
Theorem C3_try_block_errors_logged_and_rethrown (w : World) (input : OptimizeImageInput) :
  let run := upload_image_to_digital_ocean_spaces w input in
  (absent (access_key w) \/ absent (secret_key w) ->
     run = ([], Rejected credentials_error))
  /\ (credentials_set w ->
      (forall e, outcome (try_block w input) = Rejected e ->
         run = (NewS3Client (client_of w) :: Uuidv4 :: trace (try_block w input)
                  ++ [ConsoleError ["Error:"; message e]],
                Rejected e))
      /\ (forall out, outcome (try_block w input) = Fulfilled out ->
           run = (NewS3Client (client_of w) :: Uuidv4 :: trace (try_block w input),
                  Fulfilled out)))
  /\ (forall e, outcome run = Rejected e ->
       (e = credentials_error /\ ~ credentials_set w)
       \/ (credentials_set w /\ outcome (try_block w input) = Rejected e)).
Proof.
  intros run. subst run. split; [apply run_without_credentials|].
  split.
  - intros Hc. rewrite (run_with_credentials w input Hc). fold (try_block w input).
    split.
    + intros e He. by rewrite (try_catch_rejected _ e He).
    + intros out Ho. by rewrite (try_catch_fulfilled _ _ out Ho).
  - intros e. destruct (credentials_cases w) as [Hc | Hc].
    + rewrite (run_with_credentials w input Hc). fold (try_block w input).
      destruct (try_block w input) as [t [out | e']] eqn:Hb; cbn; [done|].
      intros [= ->]. by right.
    + rewrite (run_without_credentials w input Hc). cbn. intros [= <-].
      left. split; [done|]. intros [? ?]. tauto.
Qed.

Lemma C3_witness :
  upload_image_to_digital_ocean_spaces Sample.world Sample.input_gone
  = ([NewS3Client (client_of Sample.world); Uuidv4;
      Fetch "https://example.com/gone.png";
      ConsoleError ["Error:";
        "Failed to download image from https://example.com/gone.png: Not Found"]],
     Rejected (new_Error
        "Failed to download image from https://example.com/gone.png: Not Found")).
Proof.
  destruct (C3_try_block_errors_logged_and_rethrown Sample.world Sample.input_gone)
    as (_ & H & _).
  destruct (H credentials_set_sample) as [Hrej _].
  exact (Hrej (new_Error
    "Failed to download image from https://example.com/gone.png: Not Found") eq_refl).
Defined.

(** C6: an invocation settles in exactly one of two ways.  Either it is
    fulfilled with the whole result, the CDN URL of the uploaded object,
    and every stage succeeded; or it is rejected with an error, no result
    is returned, and some stage failed. *)
Theorem C6_result_or_error (w : World) (input : OptimizeImageInput) :
  let run := upload_image_to_digital_ocean_spaces w input in
  ((exists out,
      outcome run = Fulfilled out
      /\ out = {| optimized_img_url :=
                    cdn_url (bucket_name (dest input)) (key_of w input) |}
      /\ pipeline_succeeds w input)
   \/ (exists e, outcome run = Rejected e /\ ~ pipeline_succeeds w input))
  /\ ~ (exists out e, outcome run = Fulfilled out /\ outcome run = Rejected e).
Proof.
  intros run. subst run. split.
  - pipeline_cases w input.
    + left. eexists. split; [done|]. split; [done|].
      split; [done|]. exists imageBuffer, img. rewrite Hacq. by cbn.
    + right. eexists. split; [done|].
      intros (_ & b & i & Hb & Hi & Hp). rewrite Hacq in Hb. cbn in Hb.
      injection Hb as <-. rewrite Hdec in Hi. injection Hi as <-. congruence.
    + right. eexists. split; [done|].
      intros (_ & b & i & Hb & Hi & Hp). rewrite Hacq in Hb. cbn in Hb.
      injection Hb as <-. congruence.
    + right. eexists. split; [done|].
      intros (_ & b & i & Hb & Hi & Hp). rewrite Hacq in Hb. by cbn in Hb.
    + right. eexists. split; [done|].
      intros ([? ?] & _). tauto.
  - intros (out & e & H1 & H2). congruence.
Qed.

(** C4: for a destination whose folder and slug are path-safe, the object
    key is [folder/slug-<id>.avif] for the identifier [uuidv4()] returned,
    and it is the [Key] of every upload call of the invocation; two
    invocations with the same destination and distinct identifiers have
    distinct object keys. *)
Theorem C4_object_key_shape (w : World) (input : OptimizeImageInput) :
  Path.path_safe (object_folder (dest input)) = true ->
  Path.path_safe (object_slug (dest input)) = true ->
  let id := Uuid.stringify (uuid w) in
  let run := upload_image_to_digital_ocean_spaces w input in
  uuidv4 w = ([Uuidv4], Fulfilled id)
  /\ objectKey_of (dest input) id
     = object_folder (dest input) +:+ "/" +:+ object_slug (dest input) +:+ "-"
       +:+ id +:+ ".avif"
  /\ (forall params, In params (uploads (trace run)) ->
        Key params = objectKey_of (dest input) id)
  /\ (forall (w' : World) (input' : OptimizeImageInput),
        dest input' = dest input ->
        Uuid.stringify (uuid w') <> id ->
        objectKey_of (dest input') (Uuid.stringify (uuid w'))
        <> objectKey_of (dest input) id).
Proof.
  intros Hf Hs id run. subst id run.
  split; [done|]. split.
  { apply objectKey_of_path_safe; [done|done|apply no_sep_stringify]. }
  split.
  - intros params.
    pipeline_cases w input; cbn [uploads]; rewrite ?uploads_app, ?Hup; cbn;
      try tauto.
    + intros Hor. destruct Hor as [Heq | Hfalse]; [by subst params | destruct Hfalse].
    + intros Hor. destruct Hor as [Heq | Hfalse]; [by subst params | destruct Hfalse].
  - intros w' input' -> Hne Heq. apply Hne.
    eapply objectKey_of_inj; eauto using no_sep_stringify.
Qed.

Lemma C4_witness :
  objectKey_of Sample.hero (Uuid.stringify Sample.id1)
  = "img/hero-1b9d6bcd-bbfd-4b2d-9b5d-ab8dfbbd4bed.avif"
  /\ objectKey_of Sample.hero (Uuid.stringify Sample.id2)
     <> objectKey_of Sample.hero (Uuid.stringify Sample.id1).
Proof.
  destruct (C4_object_key_shape Sample.world Sample.input_local eq_refl eq_refl)
    as (_ & Hkey & _ & Hdist).
  split; [exact Hkey|].
  apply (Hdist (Sample.world_with Sample.env_full Sample.id2) Sample.input_local eq_refl).
  vm_compute. discriminate.
Defined.

(** C8: for a local input, acquisition reads the file at [file_path] once:
    when the path holds a readable file it yields exactly the contents of
    the file, and these are the bytes handed to the transcoder; when the
    path does not exist or is unreadable it fails with the error of the
    read, and the invocation is rejected without transcoding or upload. *)
Theorem C8_local_acquisition (w : World) (input : OptimizeImageInput) :
  type (source input) = "local" ->
  let path := file_path (source input) in
  let run := upload_image_to_digital_ocean_spaces w input in
  (forall contents, fs w !! path = Some (Readable contents) ->
     acquire w (source input) = ([ReadFile path], Fulfilled contents)
     /\ (credentials_set w -> transcoded (trace run) = [(contents, avif, 85%Z)]))
  /\ (fs w !! path = None \/ (exists fault, fs w !! path = Some (Unreadable fault)) ->
      (exists e, acquire w (source input) = ([ReadFile path], Rejected e)
                 /\ (credentials_set w -> outcome run = Rejected e))
      /\ transcoded (trace run) = []
      /\ uploads (trace run) = []).
Proof.
  intros Hty path run. subst path run.
  assert (Hacq : acquire w (source input) = fs_readFile w (file_path (source input))).
  { unfold acquire. by rewrite Hty. }
  unfold fs_readFile in Hacq. split.
  - intros contents Hfs. rewrite Hfs in Hacq. split; [exact Hacq|].
    intros Hc. rewrite (run_with_credentials w input Hc), (try_body_stages w input).
    rewrite Hacq. cbn.
    destruct (decode w contents); [|done].
    cbv zeta. by destruct (put_object w _ _) as [[]|].
  - intros Hfs.
    assert (He : exists e, acquire w (source input)
                           = ([ReadFile (file_path (source input))], Rejected e)).
    { destruct Hfs as [Hfs | [fault Hfs]]; rewrite Hfs in Hacq; cbn in Hacq; eauto. }
    destruct He as [e He].
    destruct (credentials_cases w) as [Hc | Hc].
    + rewrite (run_with_credentials w input Hc), (try_body_stages w input), He.
      cbn. split; [|done]. exists e. done.
    + rewrite (run_without_credentials w input Hc). cbn. split; [|done].
      exists e. split; [done|]. intros [? ?]. tauto.
Qed.

Lemma C8_witness :
  acquire Sample.world (Sample.local "/tmp/a.png")
  = ([ReadFile "/tmp/a.png"], Fulfilled [x89; x50; x4e; x47]%byte).
Proof.
  destruct (C8_local_acquisition Sample.world Sample.input_local eq_refl) as [H _].
  exact (proj1 (H Sample.png_bytes eq_refl)).
Defined.

(** Every upload call of an invocation carries the bucket of the
    destination and the object key of the invocation. *)
Lemma run_uploads (w : World) (input : OptimizeImageInput) params :
  In params (uploads (trace (upload_image_to_digital_ocean_spaces w input))) ->
  Key params = key_of w input /\ Bucket params = bucket_name (dest input).
Proof.
  pipeline_cases w input; cbn [uploads]; rewrite ?uploads_app, ?Hup; cbn;
    try tauto.
  - intros Hor. destruct Hor as [Heq | Hfalse]; [by subst params | destruct Hfalse].
  - intros Hor. destruct Hor as [Heq | Hfalse]; [by subst params | destruct Hfalse].
Qed.

(** The value of a fulfilled invocation. *)
Lemma run_fulfilled (w : World) (input : OptimizeImageInput) out :
  outcome (upload_image_to_digital_ocean_spaces w input) = Fulfilled out ->
  out = {| optimized_img_url := cdn_url (bucket_name (dest input)) (key_of w input) |}.
Proof. pipeline_cases w input; by intros [= <-]. Qed.

(** C7: the transcoding step calls sharp once, on the acquired buffer, for
    the AVIF format at quality 85.  When the buffer decodes to an image the
    step yields that image encoded as AVIF at quality 85, which becomes the
    body of the upload with content type image/avif; the step fails exactly
    when the buffer is not a decodable image, and then the invocation is
    rejected with the error of the transcoder and nothing is uploaded. *)
Theorem C7_transcoding_to_avif_85 (w : World) (input : OptimizeImageInput)
    (imageBuffer : Buffer) :
  credentials_set w ->
  outcome (acquire w (source input)) = Fulfilled imageBuffer ->
  let run := upload_image_to_digital_ocean_spaces w input in
  trace (transcode w imageBuffer) = [SharpToBuffer imageBuffer avif 85]
  /\ transcoded (trace run) = [(imageBuffer, avif, 85%Z)]
  /\ (forall img, decode w imageBuffer = Fulfilled img ->
        outcome (transcode w imageBuffer) = Fulfilled (encode w avif 85 img)
        /\ exists params,
             uploads (trace run) = [params]
             /\ Body params = encode w avif 85 img
             /\ ContentType params = "image/avif")
  /\ ((exists e, outcome (transcode w imageBuffer) = Rejected e)
      <-> ~ decodable w imageBuffer)
  /\ (forall e, decode w imageBuffer = Rejected e ->
        outcome (transcode w imageBuffer) = Rejected e
        /\ outcome run = Rejected e
        /\ uploads (trace run) = []).
Proof.
  intros Hc Hacq run. subst run.
  assert (Htc : transcode w imageBuffer
                = ([SharpToBuffer imageBuffer avif 85],
                   match decode w imageBuffer with
                   | Fulfilled img => Fulfilled (encode w avif 85 img)
                   | Rejected e => Rejected e
                   end)).
  { unfold transcode, sharp_toBuffer. unfold_async.
    by destruct (decode w imageBuffer). }
  rewrite Htc, (run_with_credentials w input Hc), (try_body_stages w input).
  pose proof (acquire_uploads w (source input)) as Hup.
  pose proof (acquire_transcoded w (source input)) as Htr.
  destruct (acquire w (source input)) as [t r]. cbn in Hacq, Hup, Htr. subst r.
  cbn [trace outcome fst snd].
  split; [done|]. split; [|split; [|split]].
  - destruct (decode w imageBuffer) as [img|e]; cbv zeta;
      [destruct (put_object w _ _) as [[]|]|];
      cbn; rewrite !transcoded_app, Htr; done.
  - intros img Hd. rewrite Hd. split; [done|]. cbv zeta.
    destruct (put_object w _ _) as [[]|]; cbn; rewrite !uploads_app, Hup; cbn; eauto.
  - unfold decodable. destruct (decode w imageBuffer) as [img|e]; split.
    + by intros [e [=]].
    + intros H. destruct H. eauto.
    + intros _ [img [=]].
    + eauto.
  - intros e Hd. rewrite Hd. cbn. by rewrite !uploads_app, Hup.
Qed.

Lemma C7_witness :
  transcoded (trace (upload_image_to_digital_ocean_spaces
                       Sample.world Sample.input_local))
  = [([x89; x50; x4e; x47]%byte, avif, 85%Z)]
  /\ ~ decodable Sample.world Sample.junk.
Proof.
  split.
  - exact (proj1 (proj2 (C7_transcoding_to_avif_85 Sample.world Sample.input_local
                           Sample.png_bytes credentials_set_sample eq_refl))).
  - intros [img H]. vm_compute in H. discriminate.
Defined.

(** C10: the object key and the returned URL are functions of the folder,
    the slug, the bucket and the identifier alone.  Two invocations that
    agree on these, whatever their sources, file systems, networks and image
    bytes, have the same object key, upload under the same key to the same
    bucket, and return the same URL when both are fulfilled; the region of
    the URL is always nyc3. *)
Theorem C10_key_and_url_ignore_the_source (w1 w2 : World)
    (input1 input2 : OptimizeImageInput) :
  object_folder (dest input1) = object_folder (dest input2) ->
  object_slug (dest input1) = object_slug (dest input2) ->
  bucket_name (dest input1) = bucket_name (dest input2) ->
  Uuid.stringify (uuid w1) = Uuid.stringify (uuid w2) ->
  let run1 := upload_image_to_digital_ocean_spaces w1 input1 in
  let run2 := upload_image_to_digital_ocean_spaces w2 input2 in
  key_of w1 input1 = key_of w2 input2
  /\ (forall p1 p2, In p1 (uploads (trace run1)) -> In p2 (uploads (trace run2)) ->
        Key p1 = Key p2 /\ Bucket p1 = Bucket p2)
  /\ (forall out1 out2, outcome run1 = Fulfilled out1 -> outcome run2 = Fulfilled out2 ->
        out1 = out2)
  /\ (forall out1, outcome run1 = Fulfilled out1 ->
        optimized_img_url out1
        = "https://" +:+ bucket_name (dest input1) +:+ "." +:+ "nyc3"
          +:+ ".cdn.digitaloceanspaces.com/" +:+ key_of w1 input1).
Proof.
  intros Hf Hs Hb Hid run1 run2. subst run1 run2.
  assert (Hk : key_of w1 input1 = key_of w2 input2).
  { unfold key_of, objectKey_of. by rewrite Hf, Hs, Hid. }
  split; [exact Hk|]. split; [|split].
  - intros p1 p2 [-> ->]%run_uploads [-> ->]%run_uploads. by rewrite Hk, Hb.
  - intros out1 out2 ->%run_fulfilled ->%run_fulfilled. by rewrite Hk, Hb.
  - by intros out1 ->%run_fulfilled.
Qed.

Lemma C10_witness :
  key_of Sample.world Sample.input_local
  = key_of Sample.world
      {| source := Sample.remote "https://example.com/a.png"; dest := Sample.hero |}.
Proof.
  exact (proj1 (C10_key_and_url_ignore_the_source Sample.world Sample.world
                  Sample.input_local
                  {| source := Sample.remote "https://example.com/a.png";
                     dest := Sample.hero |}
                  eq_refl eq_refl eq_refl eq_refl)).
Defined.

(** ** Worked examples *)

Example join_plain : Path.join ["img"; "hero-1.avif"] = "img/hero-1.avif".
Proof. reflexivity. Qed.

Example join_trailing_separator : Path.join ["img/"; "hero-1.avif"] = "img/hero-1.avif".
Proof. reflexivity. Qed.

Example join_empty_folder : Path.join [""; "hero-1.avif"] = "hero-1.avif".
Proof. reflexivity. Qed.

Example join_traversal : Path.join ["a/b"; "../../../x.avif"] = "../x.avif".
Proof. reflexivity. Qed.

Example join_absolute : Path.join ["/a//b/./"; "c/"] = "/a/b/c/".
Proof. reflexivity. Qed.

Example join_above_root : Path.join ["/.."; ".."] = "/".
Proof. reflexivity. Qed.

Example join_cancelled : Path.join ["a"; ".."] = ".".
Proof. reflexivity. Qed.

Example join_cancelled_trailing : Path.join ["a/"; "../"] = "./".
Proof. reflexivity. Qed.

(** The end-to-end scenario of a local file. *)
Example run_local_file :
  upload_image_to_digital_ocean_spaces Sample.world Sample.input_local
  = ([NewS3Client (s3_config "AK" "SK");
      Uuidv4;
      ReadFile "/tmp/a.png";
      SharpToBuffer Sample.png_bytes avif 85;
      UploadDone (s3_config "AK" "SK")
        {| Bucket := "assets";
           Key := "img/hero-1b9d6bcd-bbfd-4b2d-9b5d-ab8dfbbd4bed.avif";
           Body := Sample.toy_encode avif 85 Sample.png_bytes;
           ACL := "public-read";
           ContentType := "image/avif" |}
        4 5242880;
      ConsoleLog "File '/tmp/a.png' uploaded successfully to 'assets/img/hero-1b9d6bcd-bbfd-4b2d-9b5d-ab8dfbbd4bed.avif'."],
     Fulfilled {| optimized_img_url :=
       "https://assets.nyc3.cdn.digitaloceanspaces.com/img/hero-1b9d6bcd-bbfd-4b2d-9b5d-ab8dfbbd4bed.avif" |}).
Proof. vm_compute. reflexivity. Qed.

(** The end-to-end scenario of an unreachable URL: the fetch itself fails,
    and the upload is never called. *)
Example run_unreachable_url :
  upload_image_to_digital_ocean_spaces Sample.world
    {| source := Sample.remote "https://unreachable.invalid/a.png"; dest := Sample.hero |}
  = ([NewS3Client (s3_config "AK" "SK");
      Uuidv4;
      Fetch "https://unreachable.invalid/a.png";
      ConsoleError ["Error:"; "fetch failed"]],
     Rejected {| name := "TypeError"; message := "fetch failed" |}).
Proof. vm_compute. reflexivity. Qed.

(** An empty credential counts as absent. *)
Example run_empty_access_key :
  upload_image_to_digital_ocean_spaces
    (Sample.world_with (<["DIGITAL_OCEAN_SPACES_ACCESS_KEY" := ""]> Sample.env_full)
                       Sample.id1)
    Sample.input_local
  = ([], Rejected credentials_error).
Proof. vm_compute. reflexivity. Qed.

(** A file that is not an image is read and then refused by the transcoder. *)
Example run_not_an_image :
  upload_image_to_digital_ocean_spaces Sample.world
    {| source := Sample.local "/tmp/notes.txt"; dest := Sample.hero |}
  = ([NewS3Client (s3_config "AK" "SK");
      Uuidv4;
      ReadFile "/tmp/notes.txt";
      SharpToBuffer Sample.junk avif 85;
      ConsoleError ["Error:"; "Input buffer contains unsupported image format"]],
     Rejected (new_Error "Input buffer contains unsupported image format")).
Proof. vm_compute. reflexivity. Qed.

(** A folder that is not path-safe: the key is normalized and is not
    [folder/slug-<id>.avif]. *)
Example key_of_unsafe_folder :
  objectKey_of {| bucket_name := "assets"; object_folder := "img/../secret/";
                  object_slug := "hero" |} "1"
  = "secret/hero-1.avif".
Proof. reflexivity. Qed.

(** * Further properties of the code *)

(** ** The object key of an arbitrary destination *)
Section ObjectKeys.
Import Path.

Lemma plain_segment_hyphen seg r : plain_segment (seg +:+ String "-" r) = true.
Proof.
  destruct seg as [|c seg]; [|by apply plain_segment_extend].
  apply plain_segment_spec. cbn. repeat split; discriminate.
Qed.

Lemma push_plain b res seg :
  plain_segment seg = true -> push_segment b res seg = seg :: res.
Proof.
  intros (H1 & H2 & H3)%plain_segment_spec. unfold push_segment.
  apply String.eqb_neq in H1, H2, H3. by rewrite H1, H2, H3.
Qed.

Lemma unsegments_snoc l x : unsegments (l ++ [x]) = directory l +:+ x.
Proof.
  induction l as [|seg l IH]; [done|].
  cbn [app directory]. rewrite !append_assoc, <- IH.
  destruct (l ++ [x]) eqn:E; [by destruct l|done].
Qed.

Lemma starts_with_sep_hyphen q r :
  starts_with_sep (q +:+ String "-" r) = starts_with_sep q.
Proof. by destruct q. Qed.

Lemma append_eq_empty a b : a +:+ b = "" -> b = "".
Proof. by destruct a. Qed.

Lemma no_sep_hyphen r : no_sep r = true -> no_sep (String "-" r) = true.
Proof. unfold no_sep. cbn. by intros ->. Qed.

(** Normalization of a path whose last segment ends with a hyphen and
    separator-free text: the segments before the last are resolved, the
    last is kept. *)
Lemma normalize_hyphen q r :
  no_sep r = true ->
  normalize (q +:+ String "-" r)
  = (if starts_with_sep q then "/" else "")
    +:+ directory (rev (fold_left (push_segment (negb (starts_with_sep q)))
                                  (removelast (segments q)) []))
    +:+ List.last (segments q) "" +:+ String "-" r.
Proof.
  intros Hr%no_sep_hyphen. unfold normalize.
  pose proof (append_nonempty_r q "-" r) as Hne%String.eqb_neq. rewrite Hne.
  rewrite starts_with_sep_hyphen.
  pose proof (segments_app_no_sep q _ Hr) as Hsegs.
  assert (He : ends_with_sep (q +:+ String "-" r) = false).
  { apply not_true_is_false. intros H%ends_with_sep_last.
    rewrite Hsegs, last_last in H. by apply append_eq_empty in H. }
  rewrite He. unfold normalizeString. rewrite Hsegs, fold_left_app.
  cbn [fold_left]. rewrite push_plain by apply plain_segment_hyphen.
  cbn [rev]. rewrite unsegments_snoc.
  set (dir := directory _). set (x := List.last (segments q) "" +:+ String "-" r).
  assert (Hx : (dir +:+ x =? "") = false).
  { apply String.eqb_neq. intros H%append_eq_empty.
    by apply append_eq_empty in H. }
  rewrite Hx. cbv zeta. by destruct (starts_with_sep q).
Qed.

Lemma join_folder_file folder file :
  file <> "" ->
  join [folder; file]
  = normalize (if folder =? "" then file else folder +:+ "/" +:+ file).
Proof.
  intros Hf%String.eqb_neq. unfold join. cbn [fold_left].
  rewrite Hf. by destruct (folder =? "").
Qed.

(** The object key is the stem of the destination, a hyphen, the
    identifier and the extension, whatever the folder and the slug. *)
Lemma objectKey_of_stem d id :
  no_sep id = true ->
  objectKey_of d id = key_stem d +:+ "-" +:+ id +:+ ".avif".
Proof.
  intros Hid. unfold objectKey_of, fileExtension, key_stem. cbv zeta.
  change ("." +:+ "avif") with ".avif".
  rewrite append_assoc.
  change (("-" +:+ id) +:+ ".avif") with (String "-" (id +:+ ".avif")).
  rewrite join_folder_file by apply append_nonempty_r.
  assert (Hr : no_sep (id +:+ ".avif") = true) by (by rewrite no_sep_app, Hid).
  set (q := if object_folder d =? "" then object_slug d
            else object_folder d +:+ "/" +:+ object_slug d).
  replace (if object_folder d =? "" then object_slug d +:+ String "-" (id +:+ ".avif")
           else object_folder d +:+ "/" +:+ object_slug d +:+ String "-" (id +:+ ".avif"))
    with (q +:+ String "-" (id +:+ ".avif")).
  - rewrite (normalize_hyphen q _ Hr).
    change ("-" +:+ id +:+ ".avif") with (String "-" (id +:+ ".avif")).
    by rewrite !append_assoc.
  - subst q. destruct (object_folder d =? ""); [done|].
    rewrite append_assoc. done.
Qed.

Lemma objectKey_of_inj_any d id1 id2 :
  no_sep id1 = true -> no_sep id2 = true ->
  objectKey_of d id1 = objectKey_of d id2 -> id1 = id2.
Proof.
  intros H1 H2. rewrite !objectKey_of_stem by done.
  intros H. do 2 apply append_inv_head in H. by apply append_inv_tail in H.
Qed.

End ObjectKeys.

(** ** The object key at the edges *)
Section KeyEdges.
Import Path.

Lemma fold_push_skip_empty b res : push_segment b res "" = res.
Proof. done. Qed.

Lemma segments_last_app q :
  removelast (segments q) ++ [List.last (segments q) ""] = segments q.
Proof. symmetry. apply app_removelast_last, segments_not_nil. Qed.

(** The stem of a path-safe folder and slug, or of a path-safe slug alone,
    is the joined path itself. *)
Lemma key_stem_path_safe d :
  path_safe (if object_folder d =? "" then object_slug d
             else object_folder d +:+ "/" +:+ object_slug d) = true ->
  key_stem d = (if object_folder d =? "" then object_slug d
                else object_folder d +:+ "/" +:+ object_slug d).
Proof.
  unfold key_stem. cbv zeta.
  set (q := if object_folder d =? "" then object_slug d
            else object_folder d +:+ "/" +:+ object_slug d).
  intros Hq.
  assert (Hs : starts_with_sep q = false).
  { apply not_true_is_false. intros H%starts_with_sep_hd.
    by apply path_safe_hd in Hq. }
  rewrite Hs. cbn [negb].
  rewrite fold_push_plain by (by apply forallb_removelast).
  rewrite app_nil_r, rev_involutive.
  change ("" +:+ ?x) with x.
  by rewrite <- unsegments_snoc, segments_last_app, unsegments_segments.
Qed.

End KeyEdges.

Section KeyEdgeCases.
Import Path.

Lemma List_last_app {A} (l l' : list A) d :
  l' <> [] -> List.last (l ++ l') d = List.last l' d.
Proof.
  intros Hne. induction l as [|x l IH]; [done|].
  cbn [app]. destruct (l ++ l') eqn:E; [|by rewrite <- IH].
  destruct l, l'; done.
Qed.

Lemma starts_with_sep_app a b :
  a <> "" -> starts_with_sep (a +:+ b) = starts_with_sep a.
Proof. by destruct a. Qed.

(** A slug that climbs out of a one-segment folder: the folder is
    cancelled. *)
Lemma key_stem_traversal folder s bucket :
  plain_segment folder = true -> no_sep folder = true -> path_safe s = true ->
  key_stem {| bucket_name := bucket; object_folder := folder;
              object_slug := "../" +:+ s |} = s.
Proof.
  intros Hp Hn Hs. unfold key_stem. cbn [object_folder object_slug].
  pose proof (plain_segment_nonempty _ Hp) as Hne.
  apply String.eqb_neq in Hne as Hne'. rewrite Hne'. cbv zeta.
  set (q := folder +:+ "/" +:+ "../" +:+ s).
  assert (Hsegs : segments q = [folder; ".."] ++ segments s).
  { subst q. change ("/" +:+ "../" +:+ s) with (String "/" (".." +:+ String "/" s)).
    rewrite !segments_app_sep, (segments_no_sep folder Hn). done. }
  assert (Ha : starts_with_sep q = false).
  { apply not_true_is_false. intros H%starts_with_sep_hd.
    rewrite Hsegs in H. cbn in H. congruence. }
  rewrite Ha, Hsegs. cbn [negb].
  rewrite removelast_app by apply segments_not_nil.
  rewrite List_last_app by apply segments_not_nil.
  rewrite fold_left_app. cbn [fold_left].
  rewrite (push_plain _ _ _ Hp).
  assert (Hpop : push_segment true [folder] ".." = []).
  { apply plain_segment_spec in Hp as (_ & _ & H3%String.eqb_neq).
    cbn. by rewrite H3. }
  rewrite Hpop, fold_push_plain by (by apply forallb_removelast).
  rewrite app_nil_r, rev_involutive.
  change ("" +:+ ?x) with x.
  by rewrite <- unsegments_snoc, segments_last_app, unsegments_segments.
Qed.

(** A separator at the end of the folder changes nothing. *)
Lemma key_stem_trailing_separator folder slug bucket bucket' :
  folder <> "" ->
  key_stem {| bucket_name := bucket; object_folder := folder +:+ "/";
              object_slug := slug |}
  = key_stem {| bucket_name := bucket'; object_folder := folder;
                object_slug := slug |}.
Proof.
  intros Hne. unfold key_stem. cbn [object_folder object_slug].
  assert (Hne' : folder +:+ "/" <> "") by apply append_nonempty_r.
  apply String.eqb_neq in Hne as Hf, Hne' as Hf'. rewrite Hf, Hf'. cbv zeta.
  rewrite (starts_with_sep_app (folder +:+ "/") _ Hne').
  rewrite (starts_with_sep_app folder "/" Hne).
  rewrite (starts_with_sep_app folder _ Hne).
  assert (Hsegs : segments ((folder +:+ "/") +:+ "/" +:+ slug)
                  = (segments folder ++ [""]) ++ segments slug).
  { change ("/" +:+ slug) with (String "/" slug).
    change (folder +:+ "/") with (folder +:+ String "/" "").
    by rewrite !segments_app_sep. }
  assert (Hsegs' : segments (folder +:+ "/" +:+ slug)
                   = segments folder ++ segments slug).
  { change ("/" +:+ slug) with (String "/" slug). by rewrite segments_app_sep. }
  rewrite Hsegs, Hsegs'.
  rewrite !removelast_app, !List_last_app by apply segments_not_nil.
  by rewrite !fold_left_app.
Qed.

End KeyEdgeCases.

(** ** Properties of the object key *)

(** X1: whatever the folder and the slug, path-safe or not, the object key
    is a stem that depends on the folder and the slug only, followed by a
    hyphen, the identifier and [.avif]; every upload call carries a key of
    that form. *)
Theorem X1_object_key_ends_with_identifier :
  exists stem : string -> string -> string,
    forall (w : World) (input : OptimizeImageInput),
      let key := stem (object_folder (dest input)) (object_slug (dest input))
                 +:+ "-" +:+ Uuid.stringify (uuid w) +:+ ".avif" in
      key_of w input = key
      /\ forall params,
           In params (uploads (trace (upload_image_to_digital_ocean_spaces w input))) ->
           Key params = key.
Proof.
  exists (fun folder slug =>
            key_stem {| bucket_name := ""; object_folder := folder;
                        object_slug := slug |}).
  intros w input key.
  assert (Hk : key_of w input = key).
  { unfold key_of. rewrite objectKey_of_stem by apply no_sep_stringify.
    subst key. by destruct (dest input). }
  split; [exact Hk|].
  intros params [-> _]%run_uploads. exact Hk.
Qed.

(** X2: for every destination, path-safe or not, two invocations with the
    same destination and distinct identifiers have distinct object keys,
    upload under distinct keys, and return distinct URLs. *)
Theorem X2_distinct_identifiers_distinct_keys (w1 w2 : World)
    (input1 input2 : OptimizeImageInput) :
  dest input1 = dest input2 ->
  Uuid.stringify (uuid w1) <> Uuid.stringify (uuid w2) ->
  let run1 := upload_image_to_digital_ocean_spaces w1 input1 in
  let run2 := upload_image_to_digital_ocean_spaces w2 input2 in
  key_of w1 input1 <> key_of w2 input2
  /\ (forall p1 p2, In p1 (uploads (trace run1)) -> In p2 (uploads (trace run2)) ->
        Key p1 <> Key p2)
  /\ (forall out1 out2, outcome run1 = Fulfilled out1 -> outcome run2 = Fulfilled out2 ->
        optimized_img_url out1 <> optimized_img_url out2).
Proof.
  intros Hd Hid run1 run2. subst run1 run2.
  assert (Hk : key_of w1 input1 <> key_of w2 input2).
  { unfold key_of. rewrite Hd. intros H. apply Hid.
    eapply objectKey_of_inj_any; eauto using no_sep_stringify. }
  split; [exact Hk|]. split.
  - intros p1 p2 [-> _]%run_uploads [-> _]%run_uploads. exact Hk.
  - intros out1 out2 ->%run_fulfilled ->%run_fulfilled. cbn. rewrite Hd.
    unfold cdn_url. intros H. do 5 apply append_inv_head in H. by apply Hk.
Qed.

Lemma X2_witness :
  key_of Sample.world Sample.input_local <> key_of Scenario.world2 Sample.input_local.
Proof.
  refine (proj1 (X2_distinct_identifiers_distinct_keys Sample.world Scenario.world2
                   Sample.input_local Sample.input_local eq_refl _)).
  vm_compute. discriminate.
Defined.

(** X3: with an empty folder and a path-safe slug the object key is
    [slug-<id>.avif], with no folder and no leading separator. *)
Theorem X3_empty_folder (w : World) (input : OptimizeImageInput) :
  object_folder (dest input) = "" ->
  Path.path_safe (object_slug (dest input)) = true ->
  key_of w input
  = object_slug (dest input) +:+ "-" +:+ Uuid.stringify (uuid w) +:+ ".avif".
Proof.
  intros Hf Hs. unfold key_of.
  rewrite objectKey_of_stem by apply no_sep_stringify.
  rewrite key_stem_path_safe; rewrite Hf; done.
Qed.

Lemma X3_witness :
  key_of Sample.world
    {| source := Sample.local "/tmp/a.png";
       dest := {| bucket_name := "assets"; object_folder := ""; object_slug := "hero" |} |}
  = "hero-1b9d6bcd-bbfd-4b2d-9b5d-ab8dfbbd4bed.avif".
Proof.
  exact (X3_empty_folder Sample.world
           {| source := Sample.local "/tmp/a.png";
              dest := {| bucket_name := "assets"; object_folder := "";
                         object_slug := "hero" |} |} eq_refl eq_refl).
Defined.

(** X4: the folder and the slug are not validated.  A slug that starts with
    [../] leaves a one-segment folder: the object key is the rest of the
    slug, the identifier and the extension, and the folder is not part of
    it. *)
Theorem X4_slug_leaves_the_folder (w : World) (input : OptimizeImageInput) (s : string) :
  Path.plain_segment (object_folder (dest input)) = true ->
  Path.no_sep (object_folder (dest input)) = true ->
  object_slug (dest input) = "../" +:+ s ->
  Path.path_safe s = true ->
  key_of w input = s +:+ "-" +:+ Uuid.stringify (uuid w) +:+ ".avif".
Proof.
  intros Hp Hn Hslug Hs. unfold key_of.
  rewrite objectKey_of_stem by apply no_sep_stringify.
  destruct (dest input) as [bucket folder slug]. cbn in *. subst slug.
  by rewrite key_stem_traversal.
Qed.

Lemma X4_witness :
  key_of Sample.world
    {| source := Sample.local "/tmp/a.png";
       dest := {| bucket_name := "assets"; object_folder := "img";
                  object_slug := "../private/hero" |} |}
  = "private/hero-1b9d6bcd-bbfd-4b2d-9b5d-ab8dfbbd4bed.avif".
Proof.
  exact (X4_slug_leaves_the_folder Sample.world
           {| source := Sample.local "/tmp/a.png";
              dest := {| bucket_name := "assets"; object_folder := "img";
                         object_slug := "../private/hero" |} |}
           "private/hero" eq_refl eq_refl eq_refl eq_refl).
Defined.

(** X5: a separator at the end of a non-empty folder is dropped: the
    folders [f] and [f/] give the same object key, for every slug. *)
Theorem X5_trailing_separator_ignored (w : World) (input1 input2 : OptimizeImageInput) :
  object_folder (dest input2) <> "" ->
  object_folder (dest input1) = object_folder (dest input2) +:+ "/" ->
  object_slug (dest input1) = object_slug (dest input2) ->
  key_of w input1 = key_of w input2.
Proof.
  intros Hne Hf Hs. unfold key_of.
  rewrite !objectKey_of_stem by apply no_sep_stringify.
  destruct (dest input1) as [b1 f1 s1], (dest input2) as [b2 f2 s2].
  cbn in *. subst f1 s1. by rewrite (key_stem_trailing_separator f2 s2 b1 b2).
Qed.

Lemma X5_witness :
  key_of Sample.world
    {| source := Sample.local "/tmp/a.png";
       dest := {| bucket_name := "assets"; object_folder := "img/";
                  object_slug := "hero" |} |}
  = key_of Sample.world Sample.input_local.
Proof.
  refine (X5_trailing_separator_ignored Sample.world
            {| source := Sample.local "/tmp/a.png";
               dest := {| bucket_name := "assets"; object_folder := "img/";
                          object_slug := "hero" |} |}
            Sample.input_local _ eq_refl eq_refl).
  discriminate.
Defined.

(** ** Properties of the pipeline *)

Lemma acquire_read_file w src path :
  In (ReadFile path) (trace (acquire w src)) ->
  type src = "local" /\ path = file_path src.
Proof.
  unfold acquire, fs_readFile, download_image, fetch_url.
  destruct (String.eqb_spec (type src) "local") as [Hl|Hl].
  - unfold_async. destruct (fs w !! file_path src) as [[c|f]|]; cbn;
      intros [[= ->]|[]]; done.
  - destruct (type src =? "remote"); [|intros []].
    unfold_async. destruct (fetch w (file_url src)) as [r|e]; [|by intros [|[]]].
    destruct (ok r); cbn; [|by intros [|[]]].
    destruct (arrayBuffer r); by intros [|[]].
Qed.

Lemma acquire_fetch w src url :
  In (Fetch url) (trace (acquire w src)) ->
  type src = "remote" /\ url = file_url src.
Proof.
  unfold acquire, fs_readFile, download_image, fetch_url.
  destruct (String.eqb_spec (type src) "local") as [Hl|Hl].
  - unfold_async. destruct (fs w !! file_path src) as [[c|f]|]; cbn;
      by intros [|[]].
  - destruct (String.eqb_spec (type src) "remote") as [Hr|Hr]; [|intros []].
    unfold_async. destruct (fetch w (file_url src)) as [r|e];
      [|by intros [[= ->]|[]]].
    destruct (ok r); cbn; [|by intros [[= ->]|[]]].
    destruct (arrayBuffer r); by intros [[= ->]|[]].
Qed.

(** The events of an invocation that are not its own are those of the
    acquisition. *)
Lemma run_acquisition_events w input ev :
  is_acquisition ev = true ->
  In ev (trace (upload_image_to_digital_ocean_spaces w input)) ->
  In ev (trace (acquire w (source input))).
Proof.
  intros Hev. destruct (credentials_cases w) as [Hc | Hc].
  - rewrite (run_with_credentials w input Hc), (try_body_stages w input).
    destruct (acquire w (source input)) as [t [b|e]]; cbn [trace fst].
    + destruct (decode w b); cbv zeta; [destruct (put_object w _ _) as [[]|]|];
        cbn; rewrite ?in_app_iff; cbn; intros H;
        repeat (destruct H as [H | H]; subst; try done).
    + cbn. rewrite ?in_app_iff. cbn. intros H.
      repeat (destruct H as [H | H]; subst; try done).
  - rewrite (run_without_credentials w input Hc). by cbn.
Qed.

(** X6: an invocation reads no file and fetches no URL other than the one
    its payload names: a file is read only for a ['local'] source, and it is
    [file_path]; a URL is fetched only for a ['remote'] source, and it is
    [file_url]. *)
Theorem X6_only_the_named_source_is_touched (w : World) (input : OptimizeImageInput) :
  let run := upload_image_to_digital_ocean_spaces w input in
  (forall path, In (ReadFile path) (trace run) ->
     type (source input) = "local" /\ path = file_path (source input))
  /\ (forall url, In (Fetch url) (trace run) ->
        type (source input) = "remote" /\ url = file_url (source input)).
Proof.
  intros run. subst run. split.
  - intros path H. apply run_acquisition_events in H; [|done].
    by apply acquire_read_file in H.
  - intros url H. apply run_acquisition_events in H; [|done].
    by apply acquire_fetch in H.
Qed.

(** X7: for a remote input whose GET is answered with a status in 200-299
    and whose body arrives, [download_image] makes one fetch and yields
    exactly the bytes of the body, and these are the bytes handed to the
    transcoder. *)
Theorem X7_remote_acquisition (w : World) (input : OptimizeImageInput)
    (response : Response) (body : Buffer) :
  type (source input) = "remote" ->
  fetch w (file_url (source input)) = Fulfilled response ->
  (200 <= status response <= 299)%Z ->
  arrayBuffer response = Fulfilled body ->
  let url := file_url (source input) in
  let run := upload_image_to_digital_ocean_spaces w input in
  download_image w url = ([Fetch url], Fulfilled body)
  /\ acquire w (source input) = ([Fetch url], Fulfilled body)
  /\ (credentials_set w -> transcoded (trace run) = [(body, avif, 85%Z)]).
Proof.
  intros Hty Hf Hok%ok_iff_2xx Hb url run. subst url run.
  assert (Hd : download_image w (file_url (source input))
               = ([Fetch (file_url (source input))], Fulfilled body)).
  { unfold download_image, fetch_url. rewrite Hf. unfold_async.
    by rewrite Hok, Hb. }
  assert (Ha : acquire w (source input)
               = ([Fetch (file_url (source input))], Fulfilled body)).
  { unfold acquire. by rewrite Hty. }
  split; [exact Hd|]. split; [exact Ha|].
  intros Hc. rewrite (run_with_credentials w input Hc), (try_body_stages w input), Ha.
  destruct (decode w body); cbv zeta; [destruct (put_object w _ _) as [[]|]|]; done.
Qed.

Lemma X7_witness :
  acquire Sample.world (source Scenario.input_remote)
  = ([Fetch "https://example.com/a.png"], Fulfilled Sample.png_bytes).
Proof.
  assert (Hst : (200 <= 200 <= 299)%Z) by lia.
  exact (proj1 (proj2 (X7_remote_acquisition Sample.world Scenario.input_remote
    {| status := 200; statusText := "OK"; arrayBuffer := Fulfilled Sample.png_bytes |}
    Sample.png_bytes eq_refl eq_refl Hst eq_refl))).
Defined.

(** X8: a failure of the network is not wrapped.  When the fetch itself is
    rejected, or the response is ok and reading its body is rejected,
    [download_image] is rejected with that very error after one fetch; the
    invocation logs it, is rejected with it, and neither transcodes nor
    uploads. *)
Theorem X8_network_failure_propagates (w : World) (input : OptimizeImageInput)
    (e : JsError) :
  type (source input) = "remote" ->
  fetch w (file_url (source input)) = Rejected e
  \/ (exists response,
        fetch w (file_url (source input)) = Fulfilled response
        /\ (200 <= status response <= 299)%Z
        /\ arrayBuffer response = Rejected e) ->
  let url := file_url (source input) in
  let run := upload_image_to_digital_ocean_spaces w input in
  download_image w url = ([Fetch url], Rejected e)
  /\ (credentials_set w ->
      run = ([NewS3Client (client_of w); Uuidv4; Fetch url;
              ConsoleError ["Error:"; message e]],
             Rejected e))
  /\ transcoded (trace run) = []
  /\ uploads (trace run) = [].
Proof.
  intros Hty Hfail url run. subst url run.
  assert (Hd : download_image w (file_url (source input))
               = ([Fetch (file_url (source input))], Rejected e)).
  { unfold download_image, fetch_url.
    destruct Hfail as [Hf | (response & Hf & Hok%ok_iff_2xx & Hb)];
      rewrite Hf; unfold_async; [done|]. by rewrite Hok, Hb. }
  assert (Ha : acquire w (source input)
               = ([Fetch (file_url (source input))], Rejected e)).
  { unfold acquire. by rewrite Hty. }
  split; [exact Hd|].
  destruct (credentials_cases w) as [Hc | Hc].
  - rewrite (run_with_credentials w input Hc), (try_body_stages w input), Ha. done.
  - rewrite (run_without_credentials w input Hc). cbn. split; [|done].
    intros [? ?]. tauto.
Qed.

Lemma X8_witness :
  upload_image_to_digital_ocean_spaces Sample.world Scenario.input_unreachable
  = ([NewS3Client (client_of Sample.world); Uuidv4;
      Fetch "https://unreachable.invalid/a.png";
      ConsoleError ["Error:"; "fetch failed"]],
     Rejected {| name := "TypeError"; message := "fetch failed" |}).
Proof.
  exact (proj1 (proj2 (X8_network_failure_propagates Sample.world
    Scenario.input_unreachable {| name := "TypeError"; message := "fetch failed" |}
    eq_refl (or_introl eq_refl))) credentials_set_sample).
Defined.

(** Acquisition makes exactly one call, unless the type of the source is
    unknown. *)
Lemma acquire_shape w src :
  acquire w src = ([], Rejected (new_Error "Invalid input type"))
  \/ (exists r, acquire w src = ([ReadFile (file_path src)], r))
  \/ (exists r, acquire w src = ([Fetch (file_url src)], r)).
Proof.
  unfold acquire, fs_readFile, download_image, fetch_url.
  destruct (type src =? "local").
  - right; left. unfold_async.
    destruct (fs w !! file_path src) as [[c|f]|]; eauto.
  - destruct (type src =? "remote"); [|by left].
    right; right. unfold_async.
    destruct (fetch w (file_url src)) as [r|e]; [|eauto].
    destruct (ok r); cbn; [|eauto].
    destruct (arrayBuffer r); eauto.
Qed.

(** X9: the stages run in order and at most once.  The calls of an
    invocation to the file system or network, to the transcoder and to the
    object store are an initial part of: one acquisition, one transcoding,
    one upload.  So nothing is transcoded that was not acquired, nothing is
    uploaded that was not transcoded, and a fulfilled invocation went
    through all three. *)
Theorem X9_stages_in_order (w : World) (input : OptimizeImageInput) :
  let run := upload_image_to_digital_ocean_spaces w input in
  (stages (trace run) = []
   \/ stages (trace run) = [Acquisition]
   \/ stages (trace run) = [Acquisition; Transcoding]
   \/ stages (trace run) = [Acquisition; Transcoding; Uploading])
  /\ (forall out, outcome run = Fulfilled out ->
        stages (trace run) = [Acquisition; Transcoding; Uploading]).
Proof.
  intros run. subst run.
  destruct (credentials_cases w) as [Hc | Hc].
  - rewrite (run_with_credentials w input Hc), (try_body_stages w input).
    destruct (acquire_shape w (source input)) as [H | [[r H] | [r H]]];
      rewrite H; [by (split; [cbn; tauto | intros out [=]])| |].
    all: destruct r as [b|e]; [|by (split; [cbn; tauto | intros out [=]])].
    all: destruct (decode w b); cbv zeta;
         [destruct (put_object w _ _) as [[]|]|].
    all: split; [cbn; tauto | try (by intros out [=])].
    all: by intros out _.
  - rewrite (run_without_credentials w input Hc).
    split; [cbn; tauto | intros out [=]].
Qed.

(** Case analysis on one invocation: the credentials, the call of the
    acquisition, then the stages of the [try] block. *)
Ltac invocation_cases w input :=
  let Hc := fresh "Hcred" in
  let H := fresh "Hacq" in
  destruct (credentials_cases w) as [Hc | Hc];
  [ rewrite (run_with_credentials w input Hc), (try_body_stages w input);
    destruct (acquire_shape w (source input)) as [H | [[?r H] | [?r H]]];
    rewrite ?H;
    [ | destruct r as [?imageBuffer | ?e];
        [ destruct (decode w _) as [?img | ?e] eqn:?Hdec;
          [ cbv zeta; destruct (put_object w _ _) as [[] | ?e] eqn:?Hput | ] | ] .. ]
  | rewrite (run_without_credentials w input Hc) ];
  cbn [trace outcome fst snd try_catch catch_handler console_error emit throw
       mbind Async_bind bind app] in *.

Lemma client_of_credentials (w : World) :
  credentials_set w ->
  env w !! "DIGITAL_OCEAN_SPACES_ACCESS_KEY" = Some (accessKeyId (client_of w))
  /\ accessKeyId (client_of w) <> ""
  /\ env w !! "DIGITAL_OCEAN_SPACES_SECRET_KEY" = Some (secretAccessKey (client_of w))
  /\ secretAccessKey (client_of w) <> "".
Proof.
  unfold credentials_set, absent, client_of, access_key, secret_key.
  intros [Ha Hs].
  destruct (env w !! "DIGITAL_OCEAN_SPACES_ACCESS_KEY") as [a|]; [|tauto].
  destruct (env w !! "DIGITAL_OCEAN_SPACES_SECRET_KEY") as [k|]; [|tauto].
  cbn. repeat split; try done.
  - intros ->. tauto.
  - intros ->. tauto.
Qed.

(** The clients and the upload calls of an invocation. *)
Lemma run_clients (w : World) (input : OptimizeImageInput) :
  let run := upload_image_to_digital_ocean_spaces w input in
  (credentials_set w /\ clients (trace run) = [client_of w]
   \/ ~ credentials_set w /\ clients (trace run) = [])
  /\ (upload_calls (trace run) = []
      \/ exists avifBuffer,
           upload_calls (trace run)
           = [(client_of w, uploadParams_of input (key_of w input) avifBuffer,
               4%Z, 5242880%Z)]).
Proof.
  intros run. subst run.
  invocation_cases w input; (split; [try (by left) | eauto]).
  right. split; [|done]. intros [? ?]. tauto.
Qed.

(** X10: an invocation builds a client only when both credentials are set,
    and then exactly one: for the region [nyc3], the endpoint
    [https://nyc3.digitaloceanspaces.com], with path-style addressing, and
    with the two values of the environment, both non-empty, as its keys.
    An upload uses that client. *)
Theorem X10_client_configuration (w : World) (input : OptimizeImageInput)
    (client : S3ClientConfig) :
  let run := upload_image_to_digital_ocean_spaces w input in
  In client (clients (trace run))
  \/ (exists params queueSize partSize,
        In (client, params, queueSize, partSize) (upload_calls (trace run))) ->
  clients (trace run) = [client]
  /\ region client = "nyc3"
  /\ endpoint client = "https://nyc3.digitaloceanspaces.com"
  /\ forcePathStyle client = true
  /\ env w !! "DIGITAL_OCEAN_SPACES_ACCESS_KEY" = Some (accessKeyId client)
  /\ accessKeyId client <> ""
  /\ env w !! "DIGITAL_OCEAN_SPACES_SECRET_KEY" = Some (secretAccessKey client)
  /\ secretAccessKey client <> "".
Proof.
  intros run Hin. subst run.
  destruct (run_clients w input) as [Hcl Hup].
  assert (Hc : credentials_set w /\ client = client_of w).
  { destruct Hin as [Hin | (params & q & s & Hin)].
    - destruct Hcl as [[Hc Hcl] | [_ Hcl]]; rewrite Hcl in Hin; cbn in Hin; [|done].
      destruct Hin as [<- | []]. done.
    - destruct Hup as [Hup | [b Hup]]; rewrite Hup in Hin; cbn in Hin; [done|].
      destruct Hin as [[= <- _ _ _] | []].
      split; [|done]. destruct Hcl as [[Hc _] | [Hn Hcl]]; [done|].
      exfalso. revert Hup Hn. clear.
      destruct (credentials_cases w) as [Hc | Hc]; [tauto|].
      rewrite (run_without_credentials w input Hc). done. }
  destruct Hc as [Hc ->].
  destruct Hcl as [[_ Hcl] | [Hn _]]; [|tauto].
  split; [exact Hcl|]. repeat split; try apply (client_of_credentials w Hc).
Qed.

Lemma X10_witness :
  clients (trace (upload_image_to_digital_ocean_spaces Sample.world Sample.input_local))
  = [s3_config "AK" "SK"].
Proof.
  refine (proj1 (X10_client_configuration Sample.world Sample.input_local
                   (s3_config "AK" "SK") _)).
  left. cbn. by left.
Defined.

(** X11: every upload call of an invocation is made with the bucket of the
    destination, the ACL [public-read], the content type [image/avif], a
    queue size of 4 and a part size of 5 MiB. *)
Theorem X11_upload_arguments (w : World) (input : OptimizeImageInput)
    (client : S3ClientConfig) (params : UploadParams) (queueSize partSize : Z) :
  In (client, params, queueSize, partSize)
     (upload_calls (trace (upload_image_to_digital_ocean_spaces w input))) ->
  Bucket params = bucket_name (dest input)
  /\ ACL params = "public-read"
  /\ ContentType params = "image/avif"
  /\ queueSize = 4%Z
  /\ partSize = (5 * 1024 * 1024)%Z.
Proof.
  destruct (run_clients w input) as [_ [Hup | [b Hup]]]; rewrite Hup; [done|].
  intros [[= <- <- <- <-] | []]. done.
Qed.

Lemma X11_witness :
  In (s3_config "AK" "SK",
      uploadParams_of Sample.input_local
        "img/hero-1b9d6bcd-bbfd-4b2d-9b5d-ab8dfbbd4bed.avif"
        (Sample.toy_encode avif 85 Sample.png_bytes),
      4%Z, 5242880%Z)
     (upload_calls (trace (upload_image_to_digital_ocean_spaces
                             Sample.world Sample.input_local)))
  /\ ACL (uploadParams_of Sample.input_local
            "img/hero-1b9d6bcd-bbfd-4b2d-9b5d-ab8dfbbd4bed.avif"
            (Sample.toy_encode avif 85 Sample.png_bytes)) = "public-read".
Proof.
  assert (H : In (s3_config "AK" "SK",
      uploadParams_of Sample.input_local
        "img/hero-1b9d6bcd-bbfd-4b2d-9b5d-ab8dfbbd4bed.avif"
        (Sample.toy_encode avif 85 Sample.png_bytes),
      4%Z, 5242880%Z)
     (upload_calls (trace (upload_image_to_digital_ocean_spaces
                             Sample.world Sample.input_local)))).
  { left. reflexivity. }
  split; [exact H|].
  exact (proj1 (proj2 (X11_upload_arguments _ _ _ _ _ _ H))).
Defined.

(** X12: when the object store rejects the upload, the invocation is
    rejected with the error of the store.  The upload was attempted once,
    with the transcoded image; the success line is not written, and the
    error is logged once, as the last event. *)
Theorem X12_upload_failure (w : World) (input : OptimizeImageInput)
    (imageBuffer : Buffer) (img : image w) (e : JsError) :
  credentials_set w ->
  outcome (acquire w (source input)) = Fulfilled imageBuffer ->
  decode w imageBuffer = Fulfilled img ->
  let params := uploadParams_of input (key_of w input) (encode w avif 85 img) in
  put_object w (client_of w) params = Rejected e ->
  let run := upload_image_to_digital_ocean_spaces w input in
  outcome run = Rejected e
  /\ uploads (trace run) = [params]
  /\ console_lines (trace run) = []
  /\ console_errors (trace run) = [["Error:"; message e]]
  /\ List.last (trace run) Uuidv4 = ConsoleError ["Error:"; message e].
Proof.
  intros Hc Ha Hd params Hp run. subst run params.
  rewrite (run_with_credentials w input Hc), (try_body_stages w input).
  destruct (acquire_shape w (source input)) as [H | [[r H] | [r H]]];
    rewrite H in Ha |- *; cbn in Ha; [done| |]; subst r;
    rewrite Hd; cbv zeta; rewrite Hp; done.
Qed.

Lemma X12_witness :
  outcome (upload_image_to_digital_ocean_spaces Sample.world Scenario.input_no_bucket)
  = Rejected {| name := "NoSuchBucket";
                message := "The specified bucket does not exist" |}.
Proof.
  exact (proj1 (X12_upload_failure Sample.world Scenario.input_no_bucket
    Sample.png_bytes Sample.png_bytes
    {| name := "NoSuchBucket"; message := "The specified bucket does not exist" |}
    credentials_set_sample eq_refl eq_refl eq_refl)).
Defined.

(** X13: what an invocation writes to the console.  A fulfilled invocation
    writes the success line once, naming the source and [bucket/key], and
    no error; a rejected one writes no success line, and its error once if
    the credentials are set and not at all otherwise. *)
Theorem X13_console_output (w : World) (input : OptimizeImageInput) :
  let run := upload_image_to_digital_ocean_spaces w input in
  (forall out, outcome run = Fulfilled out ->
     console_lines (trace run)
     = ["File '" +:+ (if type (source input) =? "local"
                      then file_path (source input) else file_url (source input))
        +:+ "' uploaded successfully to '" +:+ bucket_name (dest input) +:+ "/"
        +:+ key_of w input +:+ "'."]
     /\ console_errors (trace run) = [])
  /\ (forall e, outcome run = Rejected e ->
        console_lines (trace run) = []
        /\ (credentials_set w -> console_errors (trace run) = [["Error:"; message e]])
        /\ (~ credentials_set w -> console_errors (trace run) = [])).
Proof.
  intros run. subst run.
  invocation_cases w input; split; try (by intros ? [=]).
  all: try (by intros ? [= <-]).
  all: intros ? [= <-]; repeat split; try done; try tauto.
  intros [? ?]. tauto.
Qed.

(** X14: an invocation makes no call at all exactly when a credential is
    absent. *)
Theorem X14_no_call_iff_credential_absent (w : World) (input : OptimizeImageInput) :
  trace (upload_image_to_digital_ocean_spaces w input) = []
  <-> absent (env w !! "DIGITAL_OCEAN_SPACES_ACCESS_KEY")
      \/ absent (env w !! "DIGITAL_OCEAN_SPACES_SECRET_KEY").
Proof.
  split.
  - destruct (credentials_cases w) as [Hc | Hc]; [|done].
    by rewrite (run_with_credentials w input Hc).
  - intros H. by rewrite (run_without_credentials w input H).
Qed.

(** ** Properties of the task *)
Section Task.
Import uploadOptimizedImageTask.
Context {U : Type}.

Lemma calls_map_Call (t : list Event) (rest : list (TaskEvent U)) :
  calls (map Call t ++ rest) = t ++ calls rest.
Proof. induction t as [|ev t IH]; [done|]. cbn. by rewrite IH. Qed.

Lemma logged_map_Call (t : list Event) (rest : list (TaskEvent U)) :
  logged (map Call t ++ rest) = logged rest.
Proof. induction t as [|ev t IH]; [done|]. cbn. by rewrite IH. Qed.

Lemma run_unfold (u : U) (w : World) (payload : OptimizeImageInput) :
  run u w payload
  = let f := upload_image_to_digital_ocean_spaces w payload in
    match outcome f with
    | Fulfilled result =>
        (LoggerLog "optimizing" (PayloadData payload)
           :: map Call (trace f) ++ [LoggerLog "usage" (UsageData u)],
         Fulfilled {| result := result |})
    | Rejected e =>
        (LoggerLog "optimizing" (PayloadData payload) :: map Call (trace f),
         Rejected e)
    end.
Proof.
  unfold run. by destruct (upload_image_to_digital_ocean_spaces w payload) as [t [r|e]].
Qed.

End Task.

(** X15: the task adds nothing to and hides nothing of the function it
    awaits.  Its calls are exactly the calls of
    [upload_image_to_digital_ocean_spaces] on the payload; it is fulfilled
    with the URL of the function wrapped in [result], and rejected with the
    very error of the function, which it does not catch. *)
Theorem X15_task_returns_or_rethrows (U : Type) (u : U) (w : World)
    (payload : OptimizeImageInput) :
  let f := upload_image_to_digital_ocean_spaces w payload in
  let task := uploadOptimizedImageTask.run u w payload in
  uploadOptimizedImageTask.calls (fst task) = trace f
  /\ (forall out, outcome f = Fulfilled out <->
        snd task = Fulfilled {| uploadOptimizedImageTask.result := out |})
  /\ (forall e, outcome f = Rejected e <-> snd task = Rejected e).
Proof.
  intros f task. subst f task. rewrite run_unfold. cbv zeta.
  destruct (outcome (upload_image_to_digital_ocean_spaces w payload)) as [r|e];
    cbn [fst snd uploadOptimizedImageTask.calls].
  - rewrite calls_map_Call. cbn. rewrite app_nil_r.
    split; [done|]. split; intros ?; split; intros [=]; by subst.
  - rewrite <- (app_nil_r (map _ _)), calls_map_Call. cbn. rewrite app_nil_r.
    split; [done|]. split; intros ?; split; intros [=]; by subst.
Qed.

(** X16: the log of the task.  The first event of every run is the log
    entry [optimizing] with the whole payload, before any call of the
    function and also when a credential is absent; the entry [usage] is
    written last and only when the function is fulfilled, so a rejected run
    logs [optimizing] alone. *)
Theorem X16_task_log (U : Type) (u : U) (w : World) (payload : OptimizeImageInput) :
  let f := upload_image_to_digital_ocean_spaces w payload in
  let task := uploadOptimizedImageTask.run u w payload in
  hd_error (fst task)
  = Some (uploadOptimizedImageTask.LoggerLog "optimizing"
            (uploadOptimizedImageTask.PayloadData payload))
  /\ (forall out, outcome f = Fulfilled out ->
        uploadOptimizedImageTask.logged (fst task) = ["optimizing"; "usage"]
        /\ List.last (fst task) (uploadOptimizedImageTask.Call Uuidv4)
           = uploadOptimizedImageTask.LoggerLog "usage"
               (uploadOptimizedImageTask.UsageData u))
  /\ (forall e, outcome f = Rejected e ->
        uploadOptimizedImageTask.logged (fst task) = ["optimizing"])
  /\ (absent (env w !! "DIGITAL_OCEAN_SPACES_ACCESS_KEY")
      \/ absent (env w !! "DIGITAL_OCEAN_SPACES_SECRET_KEY") ->
      task = ([uploadOptimizedImageTask.LoggerLog "optimizing"
                 (uploadOptimizedImageTask.PayloadData payload)],
              Rejected credentials_error)).
Proof.
  intros f task. subst f task. split; [|split; [|split]].
  - rewrite run_unfold. cbv zeta.
    by destruct (outcome (upload_image_to_digital_ocean_spaces w payload)).
  - intros out Ho. rewrite run_unfold. cbv zeta. rewrite Ho.
    cbn [fst uploadOptimizedImageTask.logged].
    rewrite logged_map_Call. split; [done|].
    change (?x :: ?l ++ [?y]) with ((x :: l) ++ [y]). apply last_last.
  - intros e He. rewrite run_unfold. cbv zeta. rewrite He.
    cbn [fst uploadOptimizedImageTask.logged].
    by rewrite <- (app_nil_r (map _ _)), logged_map_Call.
  - intros H. unfold uploadOptimizedImageTask.run.
    by rewrite (run_without_credentials w payload H).
Qed.
